(** * Plagiarism detector: similarity metrics of [main.cpp]

    A shallow embedding of the similarity engine of [src/main.cpp]
    ([findCommonSubstrings], [similarityMetric], [editDistance],
    [broderContainment], [generateSimilarityMatrix], [comparePairs] and the
    pair ranking of [main]) together with the properties stated for it.

    Modelling conventions.
    - A text ([std::string]) is a list of 8-bit characters, [list ascii].
    - A C++ [int] is a [Z] in the range [-2^31, 2^31); every value stored in
      an [int] variable goes through [int_of], the two's-complement
      reduction.  Loop counters and container indices are [nat]: the loops
      keep them between 0 and the (already reduced) bound.
    - [std::unordered_set<std::string>] is a [gset text]; its iteration
      order is the order of [elements].
    - [std::vector<std::vector<T>>] is a list of rows, read with [tget] and
      written in place with [tset].
    - A [double] produced by [static_cast<double>(a) / b] on integers is the
      exact quotient in lowest terms ([Num q]); a zero divisor gives [NaN]
      (for 0/0) or an infinity, as IEEE-754 arithmetic does.  The int to
      double conversions are exact and rounding is monotone and fixes 0 and
      1, which is all the properties below rely on. *)

From Stdlib Require Import ZArith QArith Qreduction Ascii String Lia Permutation Sorted.
From stdpp Require Import base tactics list list_numbers gmap sets strings.

#[local] Open Scope Z_scope.
#[local] Open Scope nat_scope.

(** ** Machine integers *)

Module Int.

Definition modulus : Z := 2 ^ 32.
Definition half_modulus : Z := 2 ^ 31.
Definition max_int : Z := 2 ^ 31 - 1.

(** The value an [int] holds after [z] is stored into it. *)
Definition int_of (z : Z) : Z :=
  ((z + half_modulus) mod modulus - half_modulus)%Z.

(** [int x = s.size()]. *)
Definition size_to_int (n : nat) : Z := int_of (Z.of_nat n).

(** A container size that an [int] holds exactly, with room for the
    [+ 1] of the table dimensions and of the last [++i]. *)
Definition fits (n : nat) : Prop := (Z.of_nat n < max_int)%Z.

End Int.

Import Int.

(** ** Texts *)

Abbreviation text := (list ascii).

(** [s[i]] for an index inside the string. *)
Definition char_at (s : text) (i : nat) : ascii := nth i s Ascii.zero.

(** [s.substr(pos, len)] for [pos <= s.size()]: at most [len] characters
    starting at [pos]. *)
Definition substr (s : text) (pos len : nat) : text := take len (drop pos s).

(** A string literal as a text. *)
Definition txt (s : string) : text := list_ascii_of_string s.

(** [x] occurs contiguously, character for character, in [s]. *)
Definition occurs_in (x s : text) : Prop := exists pre post, s = pre ++ x ++ post.

(** ** Loops and tables *)

(** [for (i = lo; i < lo + count; ++i) s = body i s]. *)
Definition for_loop {S : Type} (lo count : nat) (body : nat -> S -> S) (s : S) : S :=
  foldl (fun acc i => body i acc) s (seq lo count).

(** A [std::vector<std::vector<T>>]. *)
Abbreviation table T := (list (list T)).

Definition new_table {T : Type} (rows cols : nat) (x : T) : table T :=
  replicate rows (replicate cols x).

Definition tget {T : Type} `{Inhabited T} (dp : table T) (i j : nat) : T :=
  (dp !!! i) !!! j.

Definition tset {T : Type} (dp : table T) (i j : nat) (v : T) : table T :=
  <[i := <[j := v]> (dp !!! i)]> dp.

(** ** findCommonSubstrings *)

(** The body of the inner loop: the cell [(i, j)] of the table and the
    insertion into the set. *)
Definition fcs_cell (str1 str2 : text) (minLength : Z) (i j : nat)
    (st : table Z * gset text) : table Z * gset text :=
  let '(dp, substrings) := st in
  if decide (char_at str1 (i - 1) = char_at str2 (j - 1)) then
    let d := int_of (tget dp (i - 1) (j - 1) + 1) in
    let dp' := tset dp i j d in
    if (minLength <=? d)%Z then
      (dp', {[ substr str1 (Z.to_nat (Z.of_nat i - d)) (Z.to_nat d) ]} ∪ substrings)
    else (dp', substrings)
  else (dp, substrings).

(** The table and the two loops. A size that does not fit an [int] makes
    the program's vector constructor throw; the embedding follows the
    program for sizes that satisfy [fits], which the properties assume. *)
Definition fcs_loops (str1 str2 : text) (minLength : Z) : table Z * gset text :=
  let m := size_to_int (length str1) in
  let n := size_to_int (length str2) in
  let dp := new_table (Z.to_nat (m + 1)) (Z.to_nat (n + 1)) 0%Z in
  for_loop 1 (Z.to_nat m)
    (fun i => for_loop 1 (Z.to_nat n) (fcs_cell str1 str2 minLength i))
    (dp, ∅).

(** The vector built from the set. It lists the set in the order of
    [elements]; the program's order is that of its hash table, so the
    properties are stated on membership, or for every order. *)
Definition findCommonSubstrings (str1 str2 : text) (minLength : Z) : list text :=
  elements (fcs_loops str1 str2 minLength).2.

(** ** Doubles obtained by dividing two integers *)

Inductive double : Type :=
| Num (q : Q)
| Inf (negative : bool)
| NaN.

#[global] Instance double_inhabited : Inhabited double := populate (Num 0).

(** [static_cast<double>(a) / b]. *)
Definition double_div (a b : Z) : double :=
  if (b =? 0)%Z then
    if (a =? 0)%Z then NaN else Inf (a <? 0)%Z
  else Num (Qred (inject_Z a / inject_Z b)).

(** [x > y] on doubles: false as soon as one side is NaN. *)
Definition double_gt (x y : double) : bool :=
  match x, y with
  | NaN, _ | _, NaN => false
  | Num p, Num q => match (p ?= q)%Q with Gt => true | _ => false end
  | Inf nx, Inf ny => andb (negb nx) ny
  | Inf nx, Num _ => negb nx
  | Num _, Inf ny => ny
  end.

(** [x >= y] on doubles: false as soon as one side is NaN. *)
Definition double_ge (x y : double) : bool :=
  match x, y with
  | NaN, _ | _, NaN => false
  | Num p, Num q => match (p ?= q)%Q with Lt => false | _ => true end
  | Inf nx, Inf ny => orb (negb nx) ny
  | Inf nx, Num _ => negb nx
  | Num _, Inf ny => ny
  end.

(** [x == y] on doubles: false as soon as one side is NaN, also for a NaN
    compared with itself. *)
Definition double_eqb (x y : double) : bool :=
  match x, y with
  | Num p, Num q => Qeq_bool p q
  | Inf nx, Inf ny => Bool.eqb nx ny
  | _, _ => false
  end.

(** ** similarityMetric *)

(** The accumulation [totalLength += substring.size()] over the vector. *)
Definition total_length (commonSubstrings : list text) : Z :=
  foldl (fun totalLength substring =>
           int_of (totalLength + Z.of_nat (length substring)))
        0%Z commonSubstrings.

Definition similarityMetric (str1 str2 : text) (minLength : Z) : double :=
  let commonSubstrings := findCommonSubstrings str1 str2 minLength in
  let totalLength := total_length commonSubstrings in
  let maxLength := size_to_int (max (length str1) (length str2)) in
  double_div totalLength maxLength.

(** ** editDistance *)

Definition ed_cell (str1 str2 : text) (i j : nat) (dp : table Z) : table Z :=
  if decide (i = 0) then tset dp i j (Z.of_nat j)
  else if decide (j = 0) then tset dp i j (Z.of_nat i)
  else if decide (char_at str1 (i - 1) = char_at str2 (j - 1)) then
    tset dp i j (tget dp (i - 1) (j - 1))
  else
    tset dp i j
      (int_of (1 + Z.min (tget dp (i - 1) j)
                         (Z.min (tget dp i (j - 1)) (tget dp (i - 1) (j - 1))))).

Definition ed_loops (str1 str2 : text) : table Z :=
  let m := size_to_int (length str1) in
  let n := size_to_int (length str2) in
  let dp := new_table (Z.to_nat (m + 1)) (Z.to_nat (n + 1)) 0%Z in
  for_loop 0 (Z.to_nat (m + 1))
    (fun i => for_loop 0 (Z.to_nat (n + 1)) (ed_cell str1 str2 i))
    dp.

Definition editDistance (str1 str2 : text) : Z :=
  let m := size_to_int (length str1) in
  let n := size_to_int (length str2) in
  tget (ed_loops str1 str2) (Z.to_nat m) (Z.to_nat n).

(** ** broderContainment *)

(** The set filled by the two nested loops over start [i] and end [j]. *)
Definition substrings_of (str : text) : gset text :=
  for_loop 0 (length str)
    (fun i => for_loop (i + 1) (length str - i)
                (fun j substrings => {[ substr str i (j - i) ]} ∪ substrings))
    ∅.

Definition count_contained (substrings1 substrings2 : gset text) : Z :=
  foldl (fun countContained s =>
           if decide (s ∈ substrings2) then int_of (countContained + 1)
           else countContained)
        0%Z (elements substrings1).

Definition broderContainment (str1 str2 : text) : double :=
  let substrings1 := substrings_of str1 in
  let substrings2 := substrings_of str2 in
  let countContained := count_contained substrings1 substrings2 in
  double_div countContained (Z.of_nat (size substrings1)).

(** ** generateSimilarityMatrix *)

Definition gsm_cell (documents : list text) (minLength : Z) (i j : nat)
    (similarityMatrix : table double) : table double :=
  let similarity := similarityMetric (documents !!! i) (documents !!! j) minLength in
  tset (tset similarityMatrix i j similarity) j i similarity.

Definition generateSimilarityMatrix (documents : list text) (minLength : Z)
    : table double :=
  let n := Z.to_nat (size_to_int (length documents)) in
  let similarityMatrix := new_table n n (Num 0) in
  for_loop 0 n
    (fun i => for_loop (i + 1) (n - (i + 1)) (gsm_cell documents minLength i))
    similarityMatrix.

(** ** comparePairs and the ranking of [main] *)

Definition comparePairs (a b : nat * nat) (similarityMatrix : table double) : bool :=
  double_gt (tget similarityMatrix a.1 a.2) (tget similarityMatrix b.1 b.2).

(** The two loops of [main] that push every pair [(i, j)], [i < j]. *)
Definition all_pairs (ndocs : nat) : list (nat * nat) :=
  for_loop 0 ndocs
    (fun i => for_loop (i + 1) (ndocs - (i + 1))
                (fun j mostSimilarPairs => mostSimilarPairs ++ [(i, j)]))
    [].

(** [std::sort(first, last, comp)] belongs to the C++ library; it is
    modelled by insertion sort, which puts every element before the first
    one that [comp] does not place ahead of it. The library does not fix
    the order of elements that compare equal, so the properties are stated
    on what every sort gives: the same elements, in sorted order. *)
Fixpoint sort_insert {A : Type} (comp : A -> A -> bool) (x : A) (l : list A) : list A :=
  match l with
  | [] => [x]
  | y :: l' => if comp y x then y :: sort_insert comp x l' else x :: y :: l'
  end.

Fixpoint std_sort {A : Type} (comp : A -> A -> bool) (l : list A) : list A :=
  match l with
  | [] => []
  | x :: l' => sort_insert comp x (std_sort comp l')
  end.

Definition ranked_pairs (documents : list text) (minLength : Z) : list (nat * nat) :=
  let similarityMatrix := generateSimilarityMatrix documents minLength in
  let mostSimilarPairs := all_pairs (length documents) in
  std_sort (fun a b => comparePairs a b similarityMatrix) mostSimilarPairs.

Definition main_ranking (documents : list text) : list (nat * nat) :=
  ranked_pairs documents 5.

(** The matrix values read along a list of pairs. *)
Definition values_along (similarityMatrix : table double) (ps : list (nat * nat))
    : list double :=
  map (fun p => tget similarityMatrix p.1 p.2) ps.

(** ** highlightSimilarities *)

(** [s.find(sub)]: the first position at which [sub] occurs in [s];
    [None] stands for [string::npos]. *)
Fixpoint str_find (s sub : text) : option nat :=
  if decide (take (length sub) s = sub) then Some 0
  else match s with
       | [] => None
       | _ :: s' => S <$> str_find s' sub
       end.

(** [s.insert(pos, t)] for [pos <= s.size()]. *)
Definition str_insert (s : text) (pos : nat) (t : text) : text :=
  take pos s ++ t ++ drop pos s.

Definition mark_open : text := txt "<mark>".
Definition mark_close : text := txt "</mark>".

(** The body of the loop for one of the two texts: the two insertions
    around the first occurrence of [substring]. *)
Definition mark_first (substring highlighted : text) : text :=
  match str_find highlighted substring with
  | Some pos =>
      str_insert (str_insert highlighted pos mark_open)
        (pos + length substring + 6) mark_close
  | None => highlighted
  end.

(** The loop over the common substrings, on the two copies. *)
Definition highlight_loop (commonSubstrings : list text) (str1 str2 : text)
    : text * text :=
  foldl (fun h substring => (mark_first substring h.1, mark_first substring h.2))
        (str1, str2) commonSubstrings.

Definition highlightSimilarities (str1 str2 : text) (minLength : Z) : text :=
  let commonSubstrings := findCommonSubstrings str1 str2 minLength in
  let h := highlight_loop commonSubstrings str1 str2 in
  txt "<h3>Texto 1:</h3><p>" ++ h.1
  ++ txt "</p><h3>Texto 2:</h3><p>" ++ h.2 ++ txt "</p>".

(** ** The report loop of [main] *)

(** What [main] computes for one section of the report; the formatting of
    the numbers into HTML text is left out. *)
Record report_entry : Type := {
  entry_number : nat;
  entry_pair : nat * nat;
  entry_similarity : double;
  entry_editDist : Z;
  entry_broderCont : double;
  entry_highlight : text
}.

Definition report_entry_at (documents : list text) (minLength : Z)
    (similarityMatrix : table double) (mostSimilarPairs : list (nat * nat))
    (k : nat) : report_entry :=
  let i := (mostSimilarPairs !!! k).1 in
  let j := (mostSimilarPairs !!! k).2 in
  {| entry_number := k + 1;
     entry_pair := (i, j);
     entry_similarity := tget similarityMatrix i j;
     entry_editDist := editDistance (documents !!! i) (documents !!! j);
     entry_broderCont := broderContainment (documents !!! i) (documents !!! j);
     entry_highlight :=
       highlightSimilarities (documents !!! i) (documents !!! j) minLength |}.

(** [for (int k = 0; k < 10 && k < mostSimilarPairs.size(); ++k)]. *)
Definition main_report (documents : list text) : list report_entry :=
  let minLength := 5%Z in
  let similarityMatrix := generateSimilarityMatrix documents minLength in
  let mostSimilarPairs := main_ranking documents in
  for_loop 0 (Nat.min 10 (length mostSimilarPairs))
    (fun k report =>
       report ++ [report_entry_at documents minLength similarityMatrix
                    mostSimilarPairs k])
    [].

(** ** Notions used to state the properties *)

(** Length of the longest common prefix of two texts. *)
Fixpoint common_prefix_length (s t : text) : nat :=
  match s, t with
  | a :: s', b :: t' =>
      if decide (a = b) then S (common_prefix_length s' t') else 0
  | _, _ => 0
  end.

(** Length of the longest common suffix of [A[0..i)] and [B[0..j)]. *)
Definition common_suffix_length (A B : text) (i j : nat) : nat :=
  common_prefix_length (reverse (take i A)) (reverse (take j B)).

(** One single-character insertion, deletion or substitution, anywhere in
    the text. *)
Inductive edit1 : text -> text -> Prop :=
| edit_insert (l1 : text) (c : ascii) (l2 : text) :
    edit1 (l1 ++ l2) (l1 ++ c :: l2)
| edit_delete (l1 : text) (c : ascii) (l2 : text) :
    edit1 (l1 ++ c :: l2) (l1 ++ l2)
| edit_substitute (l1 : text) (c c' : ascii) (l2 : text) :
    c <> c' -> edit1 (l1 ++ c :: l2) (l1 ++ c' :: l2).

(** [edits n A B]: [n] successive single-character edits turn [A] into [B]. *)
Inductive edits : nat -> text -> text -> Prop :=
| edits_refl (s : text) : edits 0 s s
| edits_step (n : nat) (s t u : text) :
    edit1 s t -> edits n t u -> edits (S n) s u.

(** [d] is the minimum number of edits that turn [A] into [B]. *)
Definition min_edits (A B : text) (d : nat) : Prop :=
  edits d A B /\ forall n, edits n A B -> d <= n.

(** The Levenshtein recurrence read from the front of the two texts. *)
Fixpoint lev (s t : text) : nat :=
  match s with
  | [] => length t
  | a :: s' =>
      (fix lev_row (t : text) : nat :=
         match t with
         | [] => length s
         | b :: t' =>
             if decide (a = b) then lev s' t'
             else S (Nat.min (lev s' t) (Nat.min (lev_row t') (lev s' t')))
         end) t
  end.

(** Sum of the lengths of the strings of a vector, without reduction. *)
Definition sum_lengths (v : list text) : nat := sum_list_with length v.

(** Cell [(i', j')] is visited before cell [(i, j)] by two nested loops. *)
Definition before (i j i' j' : nat) : Prop := i' < i \/ (i' = i /\ j' < j).

(** A table of [rows] by [cols] cells. *)
Definition table_ok {T : Type} (rows cols : nat) (dp : table T) : Prop :=
  length dp = rows /\ Forall (fun r => length r = cols) dp.

(** The cells visited before [(i, j)] hold [f], the others still hold [z]. *)
Definition filled {T : Type} `{Inhabited T} (f : nat -> nat -> T) (z : T)
    (rows cols i j : nat) (dp : table T) : Prop :=
  table_ok rows cols dp /\
  forall i' j', i' < rows -> j' < cols ->
    tget dp i' j' = if decide (before i j i' j') then f i' j' else z.

(** A list of doubles that never increases: each entry is [>=] all later ones. *)
Definition non_increasing (l : list double) : Prop :=
  StronglySorted (fun x y => double_ge x y = true) l.

(** Cell [(i, j)] makes the loop insert [x]: the common suffix of
    [A[0..i)] and [B[0..j)] is non-empty, has at least [k] characters, and
    is [x]. *)
Definition inserted_at (A B : text) (k : Z) (i j : nat) (x : text) : Prop :=
  1 <= common_suffix_length A B i j /\
  (k <= Z.of_nat (common_suffix_length A B i j))%Z /\
  x = substr A (i - common_suffix_length A B i j) (common_suffix_length A B i j).

(** The invariant of the loops of [findCommonSubstrings] at cell [(i, j)]:
    the table holds the common-suffix lengths of the cells already visited,
    and the set holds what those cells inserted. *)
Definition fcs_inv (A B : text) (k : Z) (i j : nat)
    (st : list (list Z) * gset text) : Prop :=
  filled (fun i j => Z.of_nat (common_suffix_length A B i j)) 0%Z
    (length A + 1) (length B + 1) i j st.1 /\
  forall x, x ∈ st.2 <->
    exists i' j', i' <= length A /\ j' <= length B /\ before i j i' j' /\
                  inserted_at A B k i' j' x.

(** Distance between the prefixes [A[0..i)] and [B[0..j)]. *)
Definition prefix_distance (A B : text) (i j : nat) : nat :=
  lev (reverse (take i A)) (reverse (take j B)).

(** The invariant of the two loops: a square table that is symmetric and
    has a zero diagonal. *)
Definition symmetric_zero_diag (n : nat) (M : list (list double)) : Prop :=
  table_ok n n M /\
  (forall a b, a < n -> b < n -> tget M a b = tget M b a) /\
  (forall a, a < n -> tget M a a = Num 0).

(** Below the loop position, the cells above the diagonal hold the
    similarity of the two documents. *)
Definition gsm_values (documents : list text) (minLength : Z) (n i j : nat)
    (M : list (list double)) : Prop :=
  symmetric_zero_diag n M /\
  forall a b, a < b -> b < n -> before i j a b ->
    tget M a b = similarityMetric (documents !!! a) (documents !!! b) minLength.

(** The invariant of the two loops of [main] that push the pairs. *)
Definition pairs_inv (n i j : nat) (ps : list (nat * nat)) : Prop :=
  NoDup ps /\
  (forall a b, (a, b) ∈ ps <-> a < b < n /\ before i j a b) /\
  2 * length ps + i * i + 3 * i + 2 = 2 * n * i + 2 * j.

(** A double that is a number of the closed interval from 0 to 1. *)
Definition in_unit_interval (x : double) : Prop :=
  exists q, x = Num q /\ (0 <= q)%Q /\ (q <= 1)%Q.

(** Number of unordered pairs among [n] documents. *)
Definition choose2 (n : nat) : nat := n * (n - 1) / 2.

(** [x] is the longest text that ends both [s] and [t]. *)
Definition longest_common_suffix (x s t : text) : Prop :=
  x `suffix_of` s /\ x `suffix_of` t /\
  forall y, y `suffix_of` s -> y `suffix_of` t -> length y <= length x.

(** [x] occurs contiguously in both texts. *)
Definition common_substring (x A B : text) : Prop :=
  occurs_in x A /\ occurs_in x B.

(** A corpus of six documents, ranked into fifteen pairs. *)
Definition sample_corpus : list text :=
  [txt "aaaaa"; txt "aaaaab"; txt "bbbbb"; txt "ccccc"; txt "bbbbbc"; txt "d"].

(** * Properties *)

(** Exhibit the cell that inserts a string; the order side condition and
    the range of the indices are arithmetic. *)
Ltac give_cell i j H :=
  exists i, j; split; [lia|]; split; [lia|];
  split; [unfold before in *; lia|exact H].

(** ** Machine integers *)

Lemma int_of_small z :
  (- half_modulus <= z < half_modulus)%Z -> int_of z = z.
Proof.
  intros H. unfold int_of, modulus, half_modulus in *.
  rewrite Z.mod_small; lia.
Qed.

Lemma int_of_add_l a b : int_of (int_of a + b) = int_of (a + b).
Proof.
  unfold int_of, modulus, half_modulus.
  f_equal.
  replace ((a + 2 ^ 31) mod 2 ^ 32 - 2 ^ 31 + b + 2 ^ 31)%Z
    with ((a + 2 ^ 31) mod 2 ^ 32 + b)%Z by lia.
  rewrite Zplus_mod_idemp_l. f_equal. lia.
Qed.

Lemma int_of_nat n : fits n -> int_of (Z.of_nat n) = Z.of_nat n.
Proof.
  unfold fits, max_int. intros H.
  apply int_of_small. unfold half_modulus. lia.
Qed.

Lemma size_to_int_fits n : fits n -> size_to_int n = Z.of_nat n.
Proof. apply int_of_nat. Qed.

Lemma fits_le n m : n <= m -> fits m -> fits n.
Proof. unfold fits. lia. Qed.

(** ** Loops *)

Lemma for_loop_zero {S : Type} lo (body : nat -> S -> S) s :
  for_loop lo 0 body s = s.
Proof. reflexivity. Qed.

Lemma for_loop_succ {S : Type} lo n (body : nat -> S -> S) s :
  for_loop lo (Datatypes.S n) body s = body (lo + n) (for_loop lo n body s).
Proof.
  unfold for_loop. rewrite seq_S, foldl_app. reflexivity.
Qed.

(** Invariant rule for one loop. *)
Lemma for_loop_inv {S : Type} (P : nat -> S -> Prop) lo n body s :
  P lo s ->
  (forall i s, lo <= i < lo + n -> P i s -> P (Datatypes.S i) (body i s)) ->
  P (lo + n) (for_loop lo n body s).
Proof.
  intros H0 Hstep. induction n as [|n IH].
  - rewrite for_loop_zero, Nat.add_0_r. exact H0.
  - rewrite for_loop_succ, Nat.add_succ_r. apply Hstep; [lia|].
    apply IH. intros i s' Hi. apply Hstep. lia.
Qed.

(** Invariant rule for two nested loops whose inner bounds may depend on
    the outer counter. *)
Lemma nested_loop_inv {S : Type} (P : nat -> nat -> S -> Prop)
    lo_i n_i (lo_j n_j : nat -> nat) (body : nat -> nat -> S -> S) s :
  P lo_i (lo_j lo_i) s ->
  (forall i j s, lo_i <= i < lo_i + n_i -> lo_j i <= j < lo_j i + n_j i ->
     P i j s -> P i (Datatypes.S j) (body i j s)) ->
  (forall i s, lo_i <= i < lo_i + n_i ->
     P i (lo_j i + n_j i) s -> P (Datatypes.S i) (lo_j (Datatypes.S i)) s) ->
  P (lo_i + n_i) (lo_j (lo_i + n_i))
    (for_loop lo_i n_i (fun i => for_loop (lo_j i) (n_j i) (body i)) s).
Proof.
  intros H0 Hcell Hrow.
  apply (for_loop_inv (fun i s => P i (lo_j i) s)); [exact H0|].
  intros i s' Hi HP. apply Hrow; [exact Hi|].
  apply (for_loop_inv (fun j s => P i j s)); [exact HP|].
  intros j s'' Hj. apply Hcell; assumption.
Qed.

(** ** Tables *)

Section Tables.
Context {T : Type} `{Inhabited T}.

Lemma new_table_ok rows cols (x : T) : table_ok rows cols (new_table rows cols x).
Proof.
  split.
  - apply length_replicate.
  - apply Forall_replicate, length_replicate.
Qed.

Lemma tget_new_table rows cols (x : T) i j :
  i < rows -> j < cols -> tget (new_table rows cols x) i j = x.
Proof.
  intros Hi Hj. unfold tget, new_table.
  rewrite lookup_total_replicate_2 by exact Hi.
  apply lookup_total_replicate_2, Hj.
Qed.

Lemma table_ok_row rows cols (dp : table T) i :
  table_ok rows cols dp -> i < rows -> length (dp !!! i) = cols.
Proof.
  intros [Hlen Hrows] Hi.
  rewrite Forall_forall in Hrows. apply Hrows.
  apply list_elem_of_lookup. exists i.
  apply list_lookup_lookup_total_lt. lia.
Qed.

Lemma tset_ok rows cols (dp : table T) i j v :
  table_ok rows cols dp -> table_ok rows cols (tset dp i j v).
Proof.
  intros Hok. pose proof Hok as [Hlen Hrows]. unfold tset. split.
  - rewrite length_insert. exact Hlen.
  - destruct (decide (i < rows)) as [Hi|Hi].
    + apply Forall_insert; [exact Hrows|].
      rewrite length_insert. eapply table_ok_row; eauto.
    + rewrite list_insert_ge by lia. exact Hrows.
Qed.

Lemma tget_tset rows cols (dp : table T) i j v i' j' :
  table_ok rows cols dp -> i < rows -> j < cols ->
  tget (tset dp i j v) i' j'
  = if decide (i' = i /\ j' = j) then v else tget dp i' j'.
Proof.
  intros Hok Hi Hj. pose proof Hok as [Hlen Hrows]. unfold tget, tset.
  destruct (decide (i' = i)) as [->|Hne].
  - rewrite list_lookup_total_insert_eq by lia.
    destruct (decide (j' = j)) as [->|Hnej].
    + rewrite list_lookup_total_insert_eq
        by (erewrite table_ok_row; eauto).
      rewrite decide_True by auto. reflexivity.
    + rewrite list_lookup_total_insert_ne by auto.
      rewrite decide_False by tauto. reflexivity.
  - rewrite list_lookup_total_insert_ne by auto.
    rewrite decide_False by tauto. reflexivity.
Qed.

Lemma filled_start (f : nat -> nat -> T) z rows cols :
  filled f z rows cols 0 0 (new_table rows cols z).
Proof.
  split; [apply new_table_ok|].
  intros i' j' Hi Hj. rewrite tget_new_table by assumption.
  rewrite decide_False; [reflexivity|]. unfold before. lia.
Qed.

Lemma filled_write (f : nat -> nat -> T) z rows cols i j dp v :
  filled f z rows cols i j dp -> i < rows -> j < cols -> v = f i j ->
  filled f z rows cols i (Datatypes.S j) (tset dp i j v).
Proof.
  intros [Hok Hget] Hi Hj ->. split; [apply tset_ok, Hok|].
  intros i' j' Hi' Hj'. erewrite tget_tset by eauto.
  destruct (decide (i' = i /\ j' = j)) as [[-> ->]|Hne].
  - rewrite decide_True; [reflexivity|]. unfold before. lia.
  - rewrite Hget by assumption.
    destruct (decide (before i j i' j')) as [Hb|Hb].
    + rewrite decide_True; [reflexivity|]. unfold before in *. lia.
    + rewrite decide_False; [reflexivity|]. unfold before in *. lia.
Qed.

Lemma filled_skip (f : nat -> nat -> T) z rows cols i j dp :
  filled f z rows cols i j dp -> f i j = z ->
  filled f z rows cols i (Datatypes.S j) dp.
Proof.
  intros [Hok Hget] Hz. split; [exact Hok|].
  intros i' j' Hi' Hj'. rewrite Hget by assumption.
  destruct (decide (before i j i' j')) as [Hb|Hb].
  - rewrite decide_True; [reflexivity|]. unfold before in *. lia.
  - destruct (decide (i' = i /\ j' = j)) as [[-> ->]|Hne].
    + rewrite decide_True; [congruence|]. unfold before. lia.
    + rewrite decide_False; [reflexivity|]. unfold before in *. lia.
Qed.

Lemma filled_next_row (f : nat -> nat -> T) z rows cols i j dp :
  filled f z rows cols i j dp -> cols <= j ->
  filled f z rows cols (Datatypes.S i) 0 dp.
Proof.
  intros [Hok Hget] Hj. split; [exact Hok|].
  intros i' j' Hi' Hj'. rewrite Hget by assumption.
  destruct (decide (before i j i' j')) as [Hb|Hb].
  - rewrite decide_True; [reflexivity|]. unfold before in *. lia.
  - rewrite decide_False; [reflexivity|]. unfold before in *. lia.
Qed.

Lemma filled_get (f : nat -> nat -> T) z rows cols i j dp i' j' :
  filled f z rows cols i j dp -> i' < rows -> j' < cols ->
  before i j i' j' -> tget dp i' j' = f i' j'.
Proof.
  intros [Hok Hget] Hi' Hj' Hb. rewrite Hget by assumption.
  rewrite decide_True by assumption. reflexivity.
Qed.

End Tables.

Lemma filled_advance {T : Type} `{Inhabited T} (f : nat -> nat -> T) z
    rows cols i j i2 j2 dp :
  filled f z rows cols i j dp ->
  (forall i' j', i' < rows -> j' < cols ->
     before i j i' j' -> before i2 j2 i' j') ->
  (forall i' j', i' < rows -> j' < cols ->
     before i2 j2 i' j' -> ~ before i j i' j' -> f i' j' = z) ->
  filled f z rows cols i2 j2 dp.
Proof.
  intros [Hok Hget] Hmono Hnew. split; [exact Hok|].
  intros i' j' Hi' Hj'. rewrite Hget by assumption.
  destruct (decide (before i j i' j')) as [Hb|Hb].
  - rewrite decide_True by auto. reflexivity.
  - destruct (decide (before i2 j2 i' j')) as [Hb2|Hb2]; [|reflexivity].
    symmetry. apply Hnew; assumption.
Qed.

(** ** Common prefixes and suffixes *)

Lemma cpl_le_l s t : common_prefix_length s t <= length s.
Proof.
  revert t. induction s as [|a s IH]; intros [|b t]; simpl; try lia.
  destruct (decide (a = b)); [specialize (IH t)|]; lia.
Qed.

Lemma cpl_sym s t : common_prefix_length s t = common_prefix_length t s.
Proof.
  revert t. induction s as [|a s IH]; intros [|b t]; simpl; try reflexivity.
  destruct (decide (a = b)) as [->|Hne].
  - rewrite decide_True by reflexivity. f_equal. apply IH.
  - rewrite decide_False by congruence. reflexivity.
Qed.

Lemma cpl_take s t :
  take (common_prefix_length s t) s = take (common_prefix_length s t) t.
Proof.
  revert t. induction s as [|a s IH]; intros [|b t]; simpl; try reflexivity.
  destruct (decide (a = b)) as [->|Hne]; simpl; [|reflexivity].
  f_equal. apply IH.
Qed.

Lemma cpl_refl s : common_prefix_length s s = length s.
Proof.
  induction s as [|a s IH]; simpl; [reflexivity|].
  rewrite decide_True by reflexivity. f_equal. exact IH.
Qed.

Lemma char_at_lookup (s : text) i : i < length s -> s !! i = Some (char_at s i).
Proof.
  intros Hi. unfold char_at.
  destruct (nth_lookup_or_length s i Ascii.zero) as [Hs|Hs]; [exact Hs|lia].
Qed.

Section CommonSuffix.
Variables A B : text.

Abbreviation L := (common_suffix_length A B).

Lemma csl_0_l j : L 0 j = 0.
Proof. reflexivity. Qed.

Lemma csl_0_r i : L i 0 = 0.
Proof.
  unfold common_suffix_length. rewrite take_0, reverse_nil.
  destruct (reverse (take i A)); reflexivity.
Qed.

Lemma csl_succ i j :
  i < length A -> j < length B ->
  L (S i) (S j)
  = if decide (char_at A i = char_at B j) then S (L i j) else 0.
Proof.
  intros Hi Hj. unfold common_suffix_length.
  rewrite (take_S_r A i (char_at A i)) by (apply char_at_lookup, Hi).
  rewrite (take_S_r B j (char_at B j)) by (apply char_at_lookup, Hj).
  rewrite !reverse_snoc. reflexivity.
Qed.

Lemma csl_le_l i j : L i j <= i.
Proof.
  unfold common_suffix_length.
  etransitivity; [apply cpl_le_l|].
  rewrite length_reverse, length_take. lia.
Qed.

Lemma csl_le_r i j : L i j <= j.
Proof.
  unfold common_suffix_length. rewrite cpl_sym.
  etransitivity; [apply cpl_le_l|].
  rewrite length_reverse, length_take. lia.
Qed.

(** The common suffix is the same substring of both texts. *)
Lemma csl_substr i j :
  i <= length A -> j <= length B ->
  substr A (i - L i j) (L i j) = substr B (j - L i j) (L i j).
Proof.
  intros Hi Hj.
  pose proof (csl_le_l i j) as Hl. pose proof (csl_le_r i j) as Hr.
  pose proof (cpl_take (reverse (take i A)) (reverse (take j B))) as Ht.
  fold (common_suffix_length A B i j) in Ht.
  rewrite !take_reverse, !length_take in Ht.
  apply (f_equal reverse) in Ht. rewrite !reverse_involutive in Ht.
  rewrite !Nat.min_l in Ht by lia.
  unfold substr. rewrite !take_drop_commute.
  replace (i - L i j + L i j) with i by lia.
  replace (j - L i j + L i j) with j by lia.
  exact Ht.
Qed.

End CommonSuffix.

Lemma csl_sym A B i j :
  common_suffix_length A B i j = common_suffix_length B A j i.
Proof. apply cpl_sym. Qed.

Lemma csl_diag A i : i <= length A -> common_suffix_length A A i i = i.
Proof.
  intros Hi. unfold common_suffix_length.
  rewrite cpl_refl, length_reverse, length_take. lia.
Qed.

Lemma substr_length (s : text) pos len :
  pos + len <= length s -> length (substr s pos len) = len.
Proof.
  intros H. unfold substr. rewrite length_take, length_drop. lia.
Qed.

Lemma substr_occurs (s : text) pos len : occurs_in (substr s pos len) s.
Proof.
  exists (take pos s), (drop len (drop pos s)). unfold substr.
  rewrite take_drop, take_drop. reflexivity.
Qed.

Lemma substr_full (s : text) : substr s 0 (length s) = s.
Proof. unfold substr. rewrite drop_0. apply firstn_all. Qed.

Lemma occurs_in_substr (x s : text) :
  occurs_in x s <-> exists pos, pos + length x <= length s /\ x = substr s pos (length x).
Proof.
  split.
  - intros (pre & post & ->). exists (length pre). split.
    + rewrite !length_app. lia.
    + unfold substr. rewrite drop_app_length, take_app_length. reflexivity.
  - intros (pos & _ & ->). apply substr_occurs.
Qed.

(** ** findCommonSubstrings: what the loops collect *)

Section FindCommonSubstrings.
Variables (A B : text) (k : Z).
Hypothesis HA : fits (length A).
Hypothesis HB : fits (length B).

(** [m] and [n] are the two lengths, as in the source. *)
Abbreviation m := (length A).
Abbreviation n := (length B).

Lemma fcs_inv_start : fcs_inv A B k 1 1 (new_table (m + 1) (n + 1) 0%Z, ∅).
Proof.
  split; simpl.
  - eapply filled_advance; [apply filled_start| |].
    + unfold before. lia.
    + intros i' j' _ _ Hb _. unfold before in Hb.
      destruct Hb as [Hb|[-> Hb]].
      * replace i' with 0 by lia. reflexivity.
      * replace j' with 0 by lia. rewrite csl_0_r. reflexivity.
  - intros x. split; [set_solver|].
    intros (i' & j' & _ & _ & Hb & Hhit & _). exfalso.
    unfold before in Hb. destruct Hb as [Hb|[-> Hb]].
    + replace i' with 0 in Hhit by lia. rewrite csl_0_l in Hhit. lia.
    + replace j' with 0 in Hhit by lia. rewrite csl_0_r in Hhit. lia.
Qed.

Lemma fcs_inv_row i st :
  fcs_inv A B k i (1 + n) st -> fcs_inv A B k (S i) 1 st.
Proof.
  intros [Hf Hs]. split.
  - eapply filled_advance; [exact Hf| |].
    + unfold before. lia.
    + intros i' j' Hi' Hj' Hb Hnb. unfold before in *.
      replace j' with 0 by lia. rewrite csl_0_r. reflexivity.
  - intros x. rewrite Hs. split.
    + intros (i' & j' & Hi' & Hj' & Hb & Hhit).
      give_cell i' j' Hhit.
    + intros (i' & j' & Hi' & Hj' & Hb & Hhit).
      destruct (decide (j' = 0)) as [->|Hne].
      * destruct Hhit as [Hhit _]. rewrite csl_0_r in Hhit. lia.
      * give_cell i' j' Hhit.
Qed.

Lemma fcs_inv_cell i j st :
  1 <= i <= m -> 1 <= j <= n ->
  fcs_inv A B k i j st -> fcs_inv A B k i (S j) (fcs_cell A B k i j st).
Proof.
  intros Hi Hj [Hf Hs]. destruct st as [dp subs]. simpl in Hf, Hs.
  pose proof (csl_succ A B (i - 1) (j - 1) ltac:(lia) ltac:(lia)) as Hrec.
  replace (S (i - 1)) with i in Hrec by lia.
  replace (S (j - 1)) with j in Hrec by lia.
  unfold fcs_cell.
  destruct (decide (char_at A (i - 1) = char_at B (j - 1))) as [Heq|Hne].
  - (* the characters match: the cell is written *)
    assert (Hd : int_of (tget dp (i - 1) (j - 1) + 1)
                 = Z.of_nat (common_suffix_length A B i j)).
    { rewrite (filled_get _ _ _ _ _ _ _ _ _ Hf) by (unfold before; lia).
      rewrite Hrec.
      pose proof (csl_le_l A B (i - 1) (j - 1)).
      replace (Z.of_nat (common_suffix_length A B (i - 1) (j - 1)) + 1)%Z
        with (Z.of_nat (S (common_suffix_length A B (i - 1) (j - 1)))) by lia.
      apply int_of_nat. eapply fits_le; [|exact HA]. lia. }
    rewrite Hd.
    assert (Hset : forall subs' : gset text,
      (forall x, x ∈ subs' <->
         x ∈ subs \/ inserted_at A B k i j x) ->
      fcs_inv A B k i (S j) (tset dp i j (Z.of_nat (common_suffix_length A B i j)), subs')).
    { intros subs' Hsubs'. split; simpl.
      - apply filled_write; [exact Hf|lia|lia|reflexivity].
      - intros x. rewrite Hsubs', Hs. split.
        + intros [(i' & j' & Hi' & Hj' & Hb & Hhit)|Hhit].
          * give_cell i' j' Hhit.
          * give_cell i j Hhit.
        + intros (i' & j' & Hi' & Hj' & Hb & Hhit).
          destruct (decide (i' = i /\ j' = j)) as [[-> ->]|Hother].
          * right. exact Hhit.
          * left. give_cell i' j' Hhit. }
    destruct (k <=? Z.of_nat (common_suffix_length A B i j))%Z eqn:Hk.
    + apply Hset. intros x. rewrite elem_of_union, elem_of_singleton.
      rewrite <- Nat2Z.inj_sub by apply csl_le_l. rewrite !Nat2Z.id.
      unfold inserted_at. rewrite Hrec.
      apply Z.leb_le in Hk. rewrite Hrec in Hk. split.
      * intros [->|Hx]; [right|left; exact Hx]. repeat split; [lia|exact Hk].
      * intros [Hx|(_ & _ & ->)]; [right; exact Hx|left; reflexivity].
    + apply Hset. intros x. apply Z.leb_gt in Hk. split; [auto|].
      intros [Hx|(_ & Hge & _)]; [exact Hx|lia].
  - (* no match: nothing is written, and the common suffix is empty *)
    split; simpl.
    + apply filled_skip; [exact Hf|]. simpl. rewrite Hrec. reflexivity.
    + intros x. rewrite Hs. split.
      * intros (i' & j' & Hi' & Hj' & Hb & Hhit). give_cell i' j' Hhit.
      * intros (i' & j' & Hi' & Hj' & Hb & Hhit).
        destruct (decide (i' = i /\ j' = j)) as [[-> ->]|Hother].
        -- destruct Hhit as [Hhit _]. lia.
        -- give_cell i' j' Hhit.
Qed.

Lemma fcs_loops_unfold :
  fcs_loops A B k
  = for_loop 1 m (fun i => for_loop 1 n (fcs_cell A B k i))
      (new_table (m + 1) (n + 1) 0%Z, ∅).
Proof.
  unfold fcs_loops. rewrite !size_to_int_fits by assumption.
  rewrite <- !(Nat2Z.inj_add _ 1), !Nat2Z.id. reflexivity.
Qed.

Lemma fcs_loops_inv : fcs_inv A B k (1 + m) 1 (fcs_loops A B k).
Proof.
  rewrite fcs_loops_unfold.
  apply (nested_loop_inv (fcs_inv A B k) 1 m (fun _ => 1) (fun _ => n)).
  - apply fcs_inv_start.
  - intros i j st Hi Hj. apply fcs_inv_cell; lia.
  - intros i st _. apply fcs_inv_row.
Qed.

(** The set built by the loops, cell by cell. *)
Lemma fcs_loops_spec x :
  x ∈ (fcs_loops A B k).2 <->
  exists i j, i <= m /\ j <= n /\ inserted_at A B k i j x.
Proof.
  destruct fcs_loops_inv as [_ Hs]. rewrite Hs. split.
  - intros (i & j & Hi & Hj & _ & Hhit). eauto.
  - intros (i & j & Hi & Hj & Hhit). give_cell i j Hhit.
Qed.

Lemma findCommonSubstrings_spec x :
  x ∈ findCommonSubstrings A B k <->
  exists i j, i <= m /\ j <= n /\ inserted_at A B k i j x.
Proof.
  unfold findCommonSubstrings. rewrite elem_of_elements.
  apply fcs_loops_spec.
Qed.

End FindCommonSubstrings.

(** ** The Levenshtein recurrence and edit scripts *)

Lemma lev_nil_l t : lev [] t = length t.
Proof. reflexivity. Qed.

Lemma lev_nil_r s : lev s [] = length s.
Proof. destruct s; reflexivity. Qed.

Lemma lev_cons a s b t :
  lev (a :: s) (b :: t)
  = if decide (a = b) then lev s t
    else S (Nat.min (lev s (b :: t)) (Nat.min (lev (a :: s) t) (lev s t))).
Proof. reflexivity. Qed.

#[local] Opaque lev.

Lemma lev_refl s : lev s s = 0.
Proof.
  induction s as [|a s IH]; [reflexivity|].
  rewrite lev_cons, decide_True by reflexivity. exact IH.
Qed.

Lemma lev_sym s t : lev s t = lev t s.
Proof.
  revert t. induction s as [|a s IHs]; intros t.
  - rewrite lev_nil_l, lev_nil_r. reflexivity.
  - induction t as [|b t IHt].
    + rewrite lev_nil_l, lev_nil_r. reflexivity.
    + rewrite !lev_cons.
      destruct (decide (a = b)) as [->|Hne].
      * rewrite decide_True by reflexivity. apply IHs.
      * rewrite decide_False by congruence.
        rewrite (IHs (b :: t)), IHt, (IHs t). lia.
Qed.

(** Adding or removing one leading character moves the distance by at
    most one. *)
Lemma lev_cons_bounds n : forall s t, length s + length t <= n ->
  forall c,
    lev s t <= S (lev (c :: s) t) /\ lev s t <= S (lev s (c :: t)) /\
    lev (c :: s) t <= S (lev s t) /\ lev s (c :: t) <= S (lev s t).
Proof.
  induction n as [n IH] using lt_wf_ind. intros s t Hn c.
  assert (Hdrop_l : lev s t <= S (lev (c :: s) t)).
  { destruct t as [|b t'].
    - rewrite !lev_nil_r. simpl. lia.
    - rewrite lev_cons. simpl in Hn.
      destruct (IH (length s + length t') ltac:(lia) s t' ltac:(lia) b)
        as (_ & _ & _ & Hq2).
      destruct (IH (length s + length t') ltac:(lia) s t' ltac:(lia) c)
        as (Hp1 & _ & _ & _).
      destruct (decide (c = b)); lia. }
  assert (Hdrop_r : lev s t <= S (lev s (c :: t))).
  { destruct s as [|a s'].
    - rewrite !lev_nil_l. simpl. lia.
    - rewrite lev_cons. simpl in Hn.
      destruct (IH (length s' + length t) ltac:(lia) s' t ltac:(lia) a)
        as (_ & _ & Hq1 & _).
      destruct (IH (length s' + length t) ltac:(lia) s' t ltac:(lia) c)
        as (_ & Hp2 & _ & _).
      destruct (decide (a = c)); lia. }
  repeat split; [exact Hdrop_l|exact Hdrop_r| |].
  - destruct t as [|b t'].
    + rewrite !lev_nil_r. simpl. lia.
    + rewrite lev_cons. simpl in Hn.
      destruct (IH (length s + length t') ltac:(lia) s t' ltac:(lia) b)
        as (_ & Hp2 & _ & _).
      destruct (decide (c = b)); lia.
  - destruct s as [|a s'].
    + rewrite !lev_nil_l. simpl. lia.
    + rewrite lev_cons. simpl in Hn.
      destruct (IH (length s' + length t) ltac:(lia) s' t ltac:(lia) a)
        as (Hp1 & _ & _ & _).
      destruct (decide (a = c)); lia.
Qed.

Lemma lev_drop_l c s t : lev s t <= S (lev (c :: s) t).
Proof. eapply lev_cons_bounds; reflexivity. Qed.

Lemma lev_drop_r c s t : lev s t <= S (lev s (c :: t)).
Proof. eapply lev_cons_bounds; reflexivity. Qed.

Lemma lev_add_l c s t : lev (c :: s) t <= S (lev s t).
Proof. eapply lev_cons_bounds; reflexivity. Qed.

Lemma lev_add_r c s t : lev s (c :: t) <= S (lev s t).
Proof. eapply lev_cons_bounds; reflexivity. Qed.

Lemma lev_cons_cons_le a s b t : lev (a :: s) (b :: t) <= S (lev s t).
Proof. rewrite lev_cons. destruct (decide (a = b)); lia. Qed.

Lemma lev_same_head a s t : lev (a :: s) (a :: t) = lev s t.
Proof. rewrite lev_cons, decide_True by reflexivity. reflexivity. Qed.

Lemma lev_le_max s t : lev s t <= Nat.max (length s) (length t).
Proof.
  revert t. induction s as [|a s IH]; intros t.
  - rewrite lev_nil_l. lia.
  - destruct t as [|b t].
    + rewrite lev_nil_r. lia.
    + pose proof (lev_cons_cons_le a s b t). specialize (IH t). simpl. lia.
Qed.

(** Replacing the leading character of the target costs at most one. *)
Lemma lev_subst_r c c' s t : lev s (c' :: t) <= S (lev s (c :: t)).
Proof.
  induction s as [|a s IH].
  - rewrite !lev_nil_l. simpl. lia.
  - rewrite (lev_cons a s c t).
    pose proof (lev_cons_cons_le a s c' t).
    pose proof (lev_add_l a s (c' :: t)).
    pose proof (lev_add_r c' (a :: s) t).
    destruct (decide (a = c)); lia.
Qed.

(** The distance is 1-Lipschitz under one edit of the target. *)
Lemma lev_cons_lipschitz (B C : text) d :
  (forall s, lev s C <= S (lev s B)) ->
  forall s, lev s (d :: C) <= S (lev s (d :: B)).
Proof.
  intros Hbc s. induction s as [|a s IH].
  - rewrite !lev_nil_l. specialize (Hbc []). rewrite !lev_nil_l in Hbc.
    simpl. lia.
  - rewrite !lev_cons.
    pose proof (Hbc s). pose proof (Hbc (a :: s)).
    destruct (decide (a = d)); lia.
Qed.

Lemma lev_edit1_r s B C : edit1 B C -> lev s C <= S (lev s B).
Proof.
  intros Hedit. revert s.
  destruct Hedit as [l1 c l2|l1 c l2|l1 c c' l2 _];
    induction l1 as [|d l1 IH]; simpl; intros s;
    try (apply lev_cons_lipschitz; exact IH).
  - apply lev_add_r.
  - apply lev_drop_r.
  - apply lev_subst_r.
Qed.

Lemma edit1_sym s t : edit1 s t -> edit1 t s.
Proof. intros []; constructor; congruence. Qed.

Lemma edit1_cons c s t : edit1 s t -> edit1 (c :: s) (c :: t).
Proof.
  intros [l1 x l2|l1 x l2|l1 x x' l2 Hne].
  - apply (edit_insert (c :: l1)).
  - apply (edit_delete (c :: l1)).
  - apply (edit_substitute (c :: l1)), Hne.
Qed.

Lemma edit1_reverse s t : edit1 s t -> edit1 (reverse s) (reverse t).
Proof.
  intros [l1 x l2|l1 x l2|l1 x x' l2 Hne];
    rewrite ?reverse_app, ?reverse_cons, <- ?(assoc_L (++)); simpl;
    constructor; exact Hne.
Qed.

Lemma edits_cons c n s t : edits n s t -> edits n (c :: s) (c :: t).
Proof.
  induction 1 as [s|n s t u Hst _ IH].
  - constructor.
  - eapply edits_step; [apply edit1_cons, Hst|exact IH].
Qed.

Lemma edits_reverse n s t : edits n s t -> edits n (reverse s) (reverse t).
Proof.
  induction 1 as [s|n s t u Hst _ IH].
  - constructor.
  - eapply edits_step; [apply edit1_reverse, Hst|exact IH].
Qed.

Lemma edits_trans n1 n2 s t u :
  edits n1 s t -> edits n2 t u -> edits (n1 + n2) s u.
Proof.
  induction 1 as [s|n s t' t Hst _ IH]; intros Htu.
  - exact Htu.
  - simpl. eapply edits_step; [exact Hst|apply IH, Htu].
Qed.

(** No edit script is shorter than the recurrence says. *)
Lemma lev_lower_bound n s t : edits n s t -> lev s t <= n.
Proof.
  induction 1 as [s|n s t u Hst _ IH].
  - rewrite lev_refl. lia.
  - pose proof (lev_edit1_r u t s (edit1_sym _ _ Hst)) as Hstep.
    rewrite (lev_sym s u). rewrite (lev_sym t u) in IH. lia.
Qed.

Lemma edits_insert_all t : edits (length t) [] t.
Proof.
  induction t as [|b t IH]; [constructor|]. simpl.
  eapply edits_step; [apply (edit_insert [] b [])|].
  apply edits_cons, IH.
Qed.

Lemma edits_delete_all s : edits (length s) s [].
Proof.
  induction s as [|a s IH]; [constructor|]. simpl.
  eapply edits_step; [apply (edit_delete [] a s)|exact IH].
Qed.

(** The recurrence is reached by an edit script. *)
Lemma lev_reached s t : edits (lev s t) s t.
Proof.
  revert t. induction s as [|a s IHs]; intros t.
  - rewrite lev_nil_l. apply edits_insert_all.
  - induction t as [|b t IHt].
    + rewrite lev_nil_r. apply edits_delete_all.
    + rewrite lev_cons. destruct (decide (a = b)) as [->|Hne].
      * apply edits_cons, IHs.
      * destruct (Nat.min_spec (lev s (b :: t)) (Nat.min (lev (a :: s) t) (lev s t)))
          as [[_ ->]|[_ ->]].
        -- eapply edits_step; [apply (edit_delete [] a s)|apply IHs].
        -- destruct (Nat.min_spec (lev (a :: s) t) (lev s t)) as [[_ ->]|[_ ->]].
           ++ eapply edits_step; [apply (edit_insert [] b (a :: s))|].
              apply edits_cons, IHt.
           ++ eapply edits_step; [apply (edit_substitute [] a b s), Hne|].
              apply edits_cons, IHs.
Qed.

Lemma lev_min_edits s t : min_edits s t (lev s t).
Proof. split; [apply lev_reached|intros n; apply lev_lower_bound]. Qed.

Lemma min_edits_unique s t d d' : min_edits s t d -> min_edits s t d' -> d = d'.
Proof.
  intros [H1 H2] [H1' H2']. specialize (H2 _ H1'). specialize (H2' _ H1). lia.
Qed.

Lemma lev_reverse s t : lev (reverse s) (reverse t) = lev s t.
Proof.
  apply Nat.le_antisymm.
  - apply lev_lower_bound, edits_reverse, lev_reached.
  - rewrite <- (reverse_involutive s), <- (reverse_involutive t) at 1.
    apply lev_lower_bound, edits_reverse, lev_reached.
Qed.

Lemma lev_triangle s t u : lev s u <= lev s t + lev t u.
Proof.
  apply lev_lower_bound.
  eapply edits_trans; apply lev_reached.
Qed.

(** ** editDistance: the table holds the distances between prefixes *)

Section EditDistance.
Variables A B : text.
Hypothesis HA : fits (length A).
Hypothesis HB : fits (length B).

Abbreviation D := (prefix_distance A B).
Abbreviation Dz := (fun i j => Z.of_nat (prefix_distance A B i j)).

Lemma prefix_distance_0_l j : j <= length B -> D 0 j = j.
Proof.
  intros Hj. unfold prefix_distance. rewrite take_0, reverse_nil, lev_nil_l.
  rewrite length_reverse, length_take. lia.
Qed.

Lemma prefix_distance_0_r i : i <= length A -> D i 0 = i.
Proof.
  intros Hi. unfold prefix_distance. rewrite take_0, reverse_nil, lev_nil_r.
  rewrite length_reverse, length_take. lia.
Qed.

Lemma prefix_distance_succ i j :
  i < length A -> j < length B ->
  D (S i) (S j)
  = if decide (char_at A i = char_at B j) then D i j
    else S (Nat.min (D i (S j)) (Nat.min (D (S i) j) (D i j))).
Proof.
  intros Hi Hj. unfold prefix_distance.
  rewrite (take_S_r A i (char_at A i)) by (apply char_at_lookup, Hi).
  rewrite (take_S_r B j (char_at B j)) by (apply char_at_lookup, Hj).
  rewrite !reverse_snoc. apply lev_cons.
Qed.

Lemma prefix_distance_le i j : D i j <= Nat.max i j.
Proof.
  unfold prefix_distance. etransitivity; [apply lev_le_max|].
  rewrite !length_reverse, !length_take. lia.
Qed.

Lemma prefix_distance_full : D (length A) (length B) = lev A B.
Proof.
  unfold prefix_distance. rewrite !firstn_all. apply lev_reverse.
Qed.

Lemma ed_cell_filled i j dp :
  i <= length A -> j <= length B ->
  filled Dz 0%Z (length A + 1) (length B + 1) i j dp ->
  filled Dz 0%Z (length A + 1) (length B + 1) i (S j) (ed_cell A B i j dp).
Proof.
  intros Hi Hj Hf. unfold ed_cell.
  destruct (decide (i = 0)) as [->|Hi0].
  { apply filled_write; [exact Hf|lia|lia|].
    rewrite prefix_distance_0_l by exact Hj. reflexivity. }
  destruct (decide (j = 0)) as [->|Hj0].
  { apply filled_write; [exact Hf|lia|lia|].
    rewrite prefix_distance_0_r by exact Hi. reflexivity. }
  pose proof (prefix_distance_succ (i - 1) (j - 1) ltac:(lia) ltac:(lia)) as Hrec.
  replace (S (i - 1)) with i in Hrec by lia.
  replace (S (j - 1)) with j in Hrec by lia.
  rewrite !(filled_get _ _ _ _ _ _ _ _ _ Hf) by (unfold before; lia).
  destruct (decide (char_at A (i - 1) = char_at B (j - 1))) as [Heq|Hne];
    (apply filled_write; [exact Hf|lia|lia|]).
  - rewrite Hrec. reflexivity.
  - rewrite <- !Nat2Z.inj_min.
    replace (1 + Z.of_nat (Nat.min (D (i - 1) j) (Nat.min (D i (j - 1)) (D (i - 1) (j - 1)))))%Z
      with (Z.of_nat (D i j)) by (rewrite Hrec; lia).
    apply int_of_nat.
    pose proof (prefix_distance_le i j).
    unfold fits in *. lia.
Qed.

Lemma ed_loops_unfold :
  ed_loops A B
  = for_loop 0 (length A + 1)
      (fun i => for_loop 0 (length B + 1) (ed_cell A B i))
      (new_table (length A + 1) (length B + 1) 0%Z).
Proof.
  unfold ed_loops. rewrite !size_to_int_fits by assumption.
  rewrite <- !(Nat2Z.inj_add _ 1), !Nat2Z.id. reflexivity.
Qed.

Lemma ed_loops_filled :
  filled Dz 0%Z (length A + 1) (length B + 1) (length A + 1) 0 (ed_loops A B).
Proof.
  rewrite ed_loops_unfold.
  apply (nested_loop_inv
           (fun i j dp => filled Dz 0%Z (length A + 1) (length B + 1) i j dp)
           0 (length A + 1) (fun _ => 0) (fun _ => length B + 1)).
  - apply filled_start.
  - intros i j dp Hi Hj. apply ed_cell_filled; lia.
  - intros i dp _ Hf. eapply filled_next_row; [exact Hf|lia].
Qed.

(** The value returned is the Levenshtein recurrence on the whole texts. *)
Lemma editDistance_lev : editDistance A B = Z.of_nat (lev A B).
Proof.
  unfold editDistance. rewrite !size_to_int_fits by assumption.
  rewrite !Nat2Z.id.
  rewrite (filled_get _ _ _ _ _ _ _ _ _ ed_loops_filled)
    by (unfold before; lia).
  rewrite prefix_distance_full. reflexivity.
Qed.

End EditDistance.

(** ** similarityMetric *)

Lemma inserted_at_sym A B k i j x :
  i <= length A -> j <= length B ->
  inserted_at A B k i j x -> inserted_at B A k j i x.
Proof.
  intros Hi Hj (H1 & Hk & ->). unfold inserted_at.
  rewrite <- (csl_sym A B i j). repeat split; try assumption.
  apply csl_substr; assumption.
Qed.

(** The set collected for [(A, B)] is the set collected for [(B, A)]. *)
Lemma fcs_loops_sym A B k :
  fits (length A) -> fits (length B) ->
  (fcs_loops A B k).2 = (fcs_loops B A k).2.
Proof.
  intros HA HB. apply set_eq. intros x.
  rewrite !fcs_loops_spec by assumption. split.
  - intros (i & j & Hi & Hj & Hhit). exists j, i.
    split; [exact Hj|]. split; [exact Hi|]. apply inserted_at_sym; assumption.
  - intros (j & i & Hj & Hi & Hhit). exists i, j.
    split; [exact Hi|]. split; [exact Hj|]. apply inserted_at_sym; assumption.
Qed.

Lemma total_length_from (acc : Z) (v : list text) :
  foldl (fun totalLength substring =>
           int_of (totalLength + Z.of_nat (length substring))) (int_of acc) v
  = int_of (acc + Z.of_nat (sum_lengths v)).
Proof.
  revert acc. induction v as [|s v IH]; intros acc; simpl.
  - f_equal. lia.
  - rewrite int_of_add_l, IH. f_equal. unfold sum_lengths. simpl. lia.
Qed.

(** The accumulated [int] is the sum of the lengths reduced once. *)
Lemma total_length_sum v : total_length v = int_of (Z.of_nat (sum_lengths v)).
Proof.
  unfold total_length.
  change 0%Z with (int_of 0) at 1. rewrite total_length_from. reflexivity.
Qed.

(** The accumulated total does not depend on the order in which the
    unordered set is traversed. *)
Lemma total_length_perm v v' : v ≡ₚ v' -> total_length v = total_length v'.
Proof.
  intros Hp. rewrite !total_length_sum. unfold sum_lengths.
  rewrite Hp. reflexivity.
Qed.

Lemma total_length_exact v :
  (Z.of_nat (sum_lengths v) < 2 ^ 31)%Z ->
  total_length v = Z.of_nat (sum_lengths v).
Proof.
  intros H. rewrite total_length_sum. apply int_of_small.
  unfold half_modulus. lia.
Qed.

Lemma sum_lengths_elem (x : text) v : x ∈ v -> length x <= sum_lengths v.
Proof.
  unfold sum_lengths. induction 1; simpl; lia.
Qed.

Lemma double_div_num a b :
  b <> 0%Z -> double_div a b = Num (Qred (inject_Z a / inject_Z b)).
Proof.
  intros Hb. unfold double_div.
  destruct (Z.eqb_spec b 0); [contradiction|reflexivity].
Qed.

Lemma double_div_self a : a <> 0%Z -> double_div a a = Num 1.
Proof.
  intros Ha. rewrite double_div_num by exact Ha. f_equal.
  change 1%Q with (Qred 1). apply Qred_complete.
  apply Qmult_inv_r. unfold Qeq. simpl. lia.
Qed.

Lemma Qdiv_inject_nonneg a b :
  (0 <= a)%Z -> (0 < b)%Z -> (0 <= inject_Z a / inject_Z b)%Q.
Proof.
  intros Ha Hb. apply Qle_shift_div_l.
  - change 0%Q with (inject_Z 0). rewrite <- Zlt_Qlt. exact Hb.
  - rewrite Qmult_0_l. change 0%Q with (inject_Z 0). rewrite <- Zle_Qle. exact Ha.
Qed.

Lemma Qdiv_inject_ge_1 a b :
  (0 < b <= a)%Z -> (1 <= inject_Z a / inject_Z b)%Q.
Proof.
  intros [Hb Ha]. apply Qle_shift_div_l.
  - change 0%Q with (inject_Z 0). rewrite <- Zlt_Qlt. exact Hb.
  - rewrite Qmult_1_l. rewrite <- Zle_Qle. exact Ha.
Qed.

(** The whole text is collected when a text is compared with itself. *)
Lemma findCommonSubstrings_self A k :
  fits (length A) -> A <> [] -> (k <= Z.of_nat (length A))%Z ->
  A ∈ findCommonSubstrings A A k.
Proof.
  intros HA Hne Hk. apply findCommonSubstrings_spec; try assumption.
  exists (length A), (length A). split; [lia|]. split; [lia|].
  unfold inserted_at. rewrite csl_diag by lia.
  rewrite Nat.sub_diag, substr_full.
  destruct A; [contradiction|]. simpl in *. repeat split; lia.
Qed.

(** With the minimum length equal to the length of the text, the whole
    text is the only string collected. *)
Lemma findCommonSubstrings_self_full A :
  fits (length A) -> A <> [] ->
  findCommonSubstrings A A (Z.of_nat (length A)) = [A].
Proof.
  intros HA Hne. unfold findCommonSubstrings.
  rewrite <- (elements_singleton (C := gset text)). f_equal.
  apply set_eq. intros x.
  rewrite elem_of_singleton. split.
  - intros Hx. apply fcs_loops_spec in Hx; try assumption.
    destruct Hx as (i & j & Hi & Hj & _ & Hk & ->).
    pose proof (csl_le_l A A i j). pose proof (csl_le_r A A i j).
    assert (common_suffix_length A A i j = length A) as -> by lia.
    replace i with (length A) by lia.
    rewrite Nat.sub_diag. apply substr_full.
  - intros ->. apply elem_of_elements.
    apply findCommonSubstrings_self; [assumption..|lia].
Qed.

(** ** broderContainment *)

(** The set built for a text holds its non-empty substrings. *)
Lemma substrings_of_spec (s x : text) :
  x ∈ substrings_of s <->
  exists i j, i < j <= length s /\ x = substr s i (j - i).
Proof.
  set (P := fun (i j : nat) (subs : gset text) =>
    forall x, x ∈ subs <->
      exists i' j', i' < j' <= length s /\ before i j i' j' /\
                    x = substr s i' (j' - i')).
  assert (HP : P (0 + length s) (0 + length s + 1) (substrings_of s)).
  { unfold substrings_of.
    apply (nested_loop_inv P 0 (length s) (fun i => i + 1) (fun i => length s - i)).
    - intros y. split; [set_solver|].
      intros (i' & j' & Hij & Hb & _). unfold before in Hb. lia.
    - intros i j subs Hi Hj HPs y. unfold P in HPs.
      rewrite elem_of_union, elem_of_singleton, HPs. split.
      + intros [->|(i' & j' & Hij & Hb & ->)].
        * exists i, j. split; [lia|]. split; [unfold before; lia|reflexivity].
        * exists i', j'. split; [lia|]. split; [unfold before in *; lia|reflexivity].
      + intros (i' & j' & Hij & Hb & ->).
        destruct (decide (i' = i /\ j' = j)) as [[-> ->]|Hother]; [left; reflexivity|].
        right. exists i', j'. split; [lia|].
        split; [unfold before in *; lia|reflexivity].
    - intros i subs Hi HPs y. unfold P in HPs. rewrite HPs. split.
      + intros (i' & j' & Hij & Hb & ->).
        exists i', j'. split; [lia|]. split; [unfold before in *; lia|reflexivity].
      + intros (i' & j' & Hij & Hb & ->).
        exists i', j'. split; [lia|]. split; [unfold before in *; lia|reflexivity]. }
  unfold P in HP. rewrite (HP x). split.
  - intros (i & j & Hij & _ & ->). eauto.
  - intros (i & j & Hij & ->). exists i, j.
    split; [lia|]. split; [unfold before; lia|reflexivity].
Qed.

Lemma substrings_of_nonempty (s : text) : s <> [] -> size (substrings_of s) <> 0.
Proof.
  intros Hne. apply size_non_empty_iff.
  intros Hempty.
  assert (Hin : substr s 0 (1 - 0) ∈ substrings_of s).
  { apply substrings_of_spec. exists 0, 1. split; [|reflexivity].
    destruct s; [contradiction|]. simpl. lia. }
  rewrite Hempty in Hin. set_solver.
Qed.

Lemma count_contained_from (subs2 : gset text) (acc : nat) (v : list text) :
  (forall s, s ∈ v -> s ∈ subs2) ->
  (Z.of_nat (acc + length v) < 2 ^ 31)%Z ->
  foldl (fun countContained s =>
           if decide (s ∈ subs2) then int_of (countContained + 1)
           else countContained) (Z.of_nat acc) v
  = Z.of_nat (acc + length v).
Proof.
  revert acc. induction v as [|s v IH]; intros acc Hall Hfit; simpl.
  - f_equal. lia.
  - rewrite decide_True by (apply Hall; left).
    replace (int_of (Z.of_nat acc + 1)) with (Z.of_nat (S acc)).
    + rewrite IH.
      * f_equal. lia.
      * intros s' Hs'. apply Hall. right. exact Hs'.
      * simpl in Hfit. lia.
    + symmetry. replace (Z.of_nat acc + 1)%Z with (Z.of_nat (S acc)) by lia.
      apply int_of_small. unfold half_modulus. simpl in Hfit. lia.
Qed.

(** Every substring of a text is counted when it is compared with itself. *)
Lemma count_contained_self (subs : gset text) :
  (Z.of_nat (size subs) < 2 ^ 31)%Z ->
  count_contained subs subs = Z.of_nat (size subs).
Proof.
  intros Hfit. unfold count_contained.
  change 0%Z with (Z.of_nat 0).
  rewrite count_contained_from.
  - reflexivity.
  - intros s Hs. apply elem_of_elements, Hs.
  - exact Hfit.
Qed.

(** ** generateSimilarityMatrix *)

Lemma gsm_cell_symmetric documents minLength n i j M :
  i < n -> j < n -> i <> j ->
  symmetric_zero_diag n M ->
  symmetric_zero_diag n (gsm_cell documents minLength i j M).
Proof.
  intros Hi Hj Hij (Hok & Hsym & Hdiag). unfold gsm_cell.
  set (v := similarityMetric _ _ _).
  assert (Hok1 : table_ok n n (tset M i j v)) by apply tset_ok, Hok.
  split; [apply tset_ok, Hok1|]. split.
  - intros a b Ha Hb.
    rewrite !(tget_tset n n _ j i) by assumption.
    rewrite !(tget_tset n n _ i j) by assumption.
    repeat case_decide; try reflexivity; try lia.
    apply Hsym; assumption.
  - intros a Ha.
    rewrite (tget_tset n n _ j i) by assumption.
    rewrite (tget_tset n n _ i j) by assumption.
    repeat case_decide; try lia. apply Hdiag, Ha.
Qed.

Lemma generateSimilarityMatrix_invariant documents minLength :
  symmetric_zero_diag (Z.to_nat (size_to_int (length documents)))
    (generateSimilarityMatrix documents minLength).
Proof.
  unfold generateSimilarityMatrix.
  set (n := Z.to_nat (size_to_int (length documents))).
  pose proof (nested_loop_inv
    (fun (_ _ : nat) M => symmetric_zero_diag n M)
    0 n (fun i => i + 1) (fun i => n - (i + 1))
    (gsm_cell documents minLength) (new_table n n (Num 0))) as Hinv.
  apply Hinv.
  - split; [apply new_table_ok|]. split.
    + intros a b Ha Hb. rewrite !tget_new_table by assumption. reflexivity.
    + intros a Ha. apply tget_new_table; assumption.
  - intros i j M Hi Hj. apply gsm_cell_symmetric; lia.
  - intros i M _ HM. exact HM.
Qed.

Lemma generateSimilarityMatrix_values documents minLength a b :
  a < b -> b < Z.to_nat (size_to_int (length documents)) ->
  tget (generateSimilarityMatrix documents minLength) a b
  = similarityMetric (documents !!! a) (documents !!! b) minLength.
Proof.
  intros Hab Hb.
  unfold generateSimilarityMatrix.
  set (n := Z.to_nat (size_to_int (length documents))) in *.
  pose proof (nested_loop_inv (gsm_values documents minLength n)
    0 n (fun i => i + 1) (fun i => n - (i + 1))
    (gsm_cell documents minLength) (new_table n n (Num 0))) as Hinv.
  simpl in Hinv. apply Hinv; try assumption; clear Hinv.
  - split.
    + split; [apply new_table_ok|]. split.
      * intros x y Hx Hy. rewrite !tget_new_table by assumption. reflexivity.
      * intros x Hx. apply tget_new_table; assumption.
    + intros x y Hxy Hy Hbef. unfold before in Hbef. lia.
  - intros i j M Hi Hj [Hsym Hval]. split.
    + apply gsm_cell_symmetric; [lia..|exact Hsym].
    + intros x y Hxy Hy Hbef. unfold gsm_cell.
      destruct Hsym as (Hok & _ & _).
      assert (Hok1 : table_ok n n (tset M i j
                (similarityMetric (documents !!! i) (documents !!! j) minLength)))
        by apply tset_ok, Hok.
      rewrite (tget_tset n n _ j i) by (assumption || lia).
      rewrite (tget_tset n n _ i j) by (assumption || lia).
      repeat case_decide; try lia.
      * destruct_and!; subst. reflexivity.
      * apply Hval; try assumption. unfold before in *. lia.
  - intros i M Hi [Hsym Hval]. split; [exact Hsym|].
    intros x y Hxy Hy Hbef. apply Hval; try assumption.
    unfold before in *. lia.
  - unfold before. lia.
Qed.

(** ** The pairs pushed by [main] *)

Lemma all_pairs_inv n : pairs_inv n n (n + 1) (all_pairs n).
Proof.
  unfold all_pairs.
  pose proof (nested_loop_inv (pairs_inv n)
    0 n (fun i => i + 1) (fun i => n - (i + 1))
    (fun i j mostSimilarPairs => mostSimilarPairs ++ [(i, j)]) []) as Hinv.
  simpl in Hinv. apply Hinv; clear Hinv.
  - split; [constructor|]. split; [|simpl; lia].
    intros a b. split; [intros Hin; inversion Hin|].
    unfold before. lia.
  - intros i j ps Hi Hj (Hnd & Hmem & Hlen). split; [|split].
    + apply NoDup_app. split; [exact Hnd|]. split; [|apply NoDup_singleton].
      intros [a b] Hin Hin'. apply list_elem_of_singleton in Hin'.
      injection Hin' as -> ->. apply Hmem in Hin. unfold before in Hin. lia.
    + intros a b. rewrite elem_of_app, list_elem_of_singleton, Hmem.
      unfold before. split.
      * intros [?|[= -> ->]]; lia.
      * intros Hab.
        destruct (decide (a = i /\ b = j)) as [[-> ->]|Hother]; [right; reflexivity|].
        left. lia.
    + rewrite length_app. simpl. lia.
  - intros i ps Hi (Hnd & Hmem & Hlen). split; [exact Hnd|]. split.
    + intros a b. rewrite Hmem. unfold before. lia.
    + nia.
Qed.


Lemma all_pairs_spec n a b : (a, b) ∈ all_pairs n <-> a < b < n.
Proof.
  destruct (all_pairs_inv n) as (_ & Hmem & _). rewrite Hmem.
  unfold before. lia.
Qed.

Lemma all_pairs_length n : 2 * length (all_pairs n) = n * (n - 1).
Proof.
  destruct (all_pairs_inv n) as (_ & _ & Hlen). nia.
Qed.

(** ** Sorting *)

Section Sorting.
Context {X : Type} (comp : X -> X -> bool).

Lemma sort_insert_perm x l : sort_insert comp x l ≡ₚ x :: l.
Proof.
  induction l as [|y l IH]; simpl; [reflexivity|].
  destruct (comp y x); [|reflexivity].
  rewrite IH. apply perm_swap.
Qed.

Lemma std_sort_perm l : std_sort comp l ≡ₚ l.
Proof.
  induction l as [|x l IH]; simpl; [reflexivity|].
  rewrite sort_insert_perm, IH. reflexivity.
Qed.

(** Sortedness, for a comparator that decides a total and transitive
    order on the elements that are sorted. *)
Lemma sort_insert_sorted (R : X -> X -> Prop) (d : list X) x l :
  (forall a b, a ∈ d -> b ∈ d -> comp a b = true -> R a b) ->
  (forall a b, a ∈ d -> b ∈ d -> comp a b = false -> R b a) ->
  (forall a b c, a ∈ d -> b ∈ d -> c ∈ d -> R a b -> R b c -> R a c) ->
  x ∈ d -> (forall y, y ∈ l -> y ∈ d) ->
  StronglySorted R l -> StronglySorted R (sort_insert comp x l).
Proof.
  intros Hgt Hle Htrans Hx Hl Hsorted.
  induction Hsorted as [|y l Hsorted IH Hy]; simpl.
  - repeat constructor.
  - assert (Hyd : y ∈ d) by (apply Hl; left).
    assert (Hld : forall z, z ∈ l -> z ∈ d) by (intros z Hz; apply Hl; right; exact Hz).
    destruct (comp y x) eqn:Hc.
    + constructor; [apply IH, Hld|].
      rewrite sort_insert_perm. constructor; [apply Hgt; assumption|exact Hy].
    + constructor; [constructor; assumption|].
      assert (Hxy : R x y) by (apply Hle; assumption).
      constructor; [exact Hxy|].
      rewrite Forall_forall in Hy |- *. intros z Hz.
      apply (Htrans x y z); auto.
Qed.

Lemma std_sort_sorted (R : X -> X -> Prop) l :
  (forall a b, a ∈ l -> b ∈ l -> comp a b = true -> R a b) ->
  (forall a b, a ∈ l -> b ∈ l -> comp a b = false -> R b a) ->
  (forall a b c, a ∈ l -> b ∈ l -> c ∈ l -> R a b -> R b c -> R a c) ->
  StronglySorted R (std_sort comp l).
Proof.
  intros Hgt Hle Htrans.
  assert (Hgen : forall l', (forall y, y ∈ l' -> y ∈ l) ->
                 StronglySorted R (std_sort comp l')).
  { induction l' as [|x l' IH]; intros Hsub; simpl; [constructor|].
    apply (sort_insert_sorted R l); try assumption.
    - apply Hsub. left.
    - intros y Hy. rewrite std_sort_perm in Hy. apply Hsub. right. exact Hy.
    - apply IH. intros y Hy. apply Hsub. right. exact Hy. }
  apply Hgen. auto.
Qed.

End Sorting.

Lemma StronglySorted_map {X Y : Type} (f : X -> Y) (R : Y -> Y -> Prop) l :
  StronglySorted (fun a b => R (f a) (f b)) l -> StronglySorted R (map f l).
Proof.
  induction 1 as [|x l _ IH Hx]; simpl; constructor; [exact IH|].
  rewrite Forall_forall in Hx. apply Forall_forall.
  intros y Hy. apply list_elem_of_In, in_map_iff in Hy.
  destruct Hy as (z & <- & Hz). apply Hx, list_elem_of_In, Hz.
Qed.

(** ** Order on the doubles that are numbers *)

Lemma double_ge_num p q : double_ge (Num p) (Num q) = true <-> (q <= p)%Q.
Proof.
  unfold double_ge. rewrite Qle_alt, <- Qcompare_antisym.
  destruct (q ?= p)%Q; simpl; split; intros; congruence.
Qed.

Lemma double_gt_num p q : double_gt (Num p) (Num q) = true <-> (q < p)%Q.
Proof.
  unfold double_gt. rewrite Qlt_alt, <- Qcompare_antisym.
  destruct (q ?= p)%Q; simpl; split; intros; congruence.
Qed.

Lemma double_gt_ge x y :
  double_gt x y = true -> double_ge x y = true.
Proof.
  destruct x as [p|[]|], y as [q|[]|]; unfold double_gt, double_ge;
    simpl; try congruence.
  destruct (p ?= q)%Q; congruence.
Qed.

Lemma double_not_gt_ge p q :
  double_gt (Num p) (Num q) = false -> double_ge (Num q) (Num p) = true.
Proof.
  intros H. apply double_ge_num. apply Qnot_lt_le. intros Hlt.
  apply double_gt_num in Hlt. congruence.
Qed.

Lemma double_ge_trans p q r :
  double_ge (Num p) (Num q) = true -> double_ge (Num q) (Num r) = true ->
  double_ge (Num p) (Num r) = true.
Proof.
  rewrite !double_ge_num. intros H1 H2. eapply Qle_trans; eassumption.
Qed.

Lemma double_ge_NaN_l x : double_ge NaN x = false.
Proof. reflexivity. Qed.

Lemma double_ge_NaN_r x : double_ge x NaN = false.
Proof. destruct x as [p|[]|]; reflexivity. Qed.

(** With at least one non-empty text the metric is a number. *)
Lemma similarityMetric_num A B k :
  fits (length A) -> fits (length B) -> A <> [] \/ B <> [] ->
  similarityMetric A B k
  = Num (Qred (inject_Z (total_length (findCommonSubstrings A B k))
               / inject_Z (Z.of_nat (Nat.max (length A) (length B))))).
Proof.
  intros HA HB Hne. unfold similarityMetric.
  assert (Hmax : fits (Nat.max (length A) (length B))).
  { destruct (Nat.max_spec (length A) (length B)) as [[_ ->]|[_ ->]]; assumption. }
  rewrite (size_to_int_fits _ Hmax). apply double_div_num.
  destruct Hne as [Hne|Hne]; [destruct A|destruct B];
    try contradiction; simpl; lia.
Qed.

(** * The stated properties *)

(** ** findCommonSubstrings *)

(** C10: the vector returned by [findCommonSubstrings A B k] has no
    duplicates, and each of its elements has at least [k] characters (and at
    least one) and occurs contiguously in both [A] and [B]. *)
Theorem findCommonSubstrings_sound (A B : text) (k : Z)
    (HA : fits (length A)) (HB : fits (length B)) :
  NoDup (findCommonSubstrings A B k) /\
  forall x, x ∈ findCommonSubstrings A B k ->
    (k <= Z.of_nat (length x))%Z /\ 1 <= length x /\
    occurs_in x A /\ occurs_in x B.
Proof.
  split; [apply NoDup_elements|].
  intros x Hx. apply findCommonSubstrings_spec in Hx; try assumption.
  destruct Hx as (i & j & Hi & Hj & H1 & Hk & Hx).
  pose proof (csl_le_l A B i j) as Hl.
  assert (Hlen : length x = common_suffix_length A B i j).
  { rewrite Hx. apply substr_length. lia. }
  rewrite Hlen. repeat split; try assumption.
  - rewrite Hx. apply substr_occurs.
  - rewrite Hx, csl_substr by assumption. apply substr_occurs.
Qed.

Lemma findCommonSubstrings_sound_witness :
  NoDup (findCommonSubstrings (txt "abcde") (txt "abcxy") 2) /\
  forall x, x ∈ findCommonSubstrings (txt "abcde") (txt "abcxy") 2 ->
    (2 <= Z.of_nat (length x))%Z /\ 1 <= length x /\
    occurs_in x (txt "abcde") /\ occurs_in x (txt "abcxy").
Proof.
  apply findCommonSubstrings_sound; vm_compute; reflexivity.
Defined.

(** C1, evaluated at [A = B = "abc"], [k = 1]: the string ["bc"] has length
    2 and occurs in both texts, but the returned vector holds only ["a"],
    ["ab"] and ["abc"]; the common substrings that do not start where a
    run of matches starts are left out. *)
Theorem findCommonSubstrings_misses_bc :
  (1 <= Z.of_nat (length (txt "bc")))%Z /\
  occurs_in (txt "bc") (txt "abc") /\
  findCommonSubstrings (txt "abc") (txt "abc") 1 ≡ₚ [txt "a"; txt "ab"; txt "abc"] /\
  txt "bc" ∉ findCommonSubstrings (txt "abc") (txt "abc") 1.
Proof.
  assert (E : findCommonSubstrings (txt "abc") (txt "abc") 1
              = [txt "abc"; txt "ab"; txt "a"]) by (vm_compute; reflexivity).
  rewrite E.
  split; [vm_compute; discriminate|].
  split; [exists (txt "a"), []; reflexivity|].
  split.
  - rewrite (Permutation_rev [txt "a"; txt "ab"; txt "abc"]). reflexivity.
  - intros Hin. apply list_elem_of_In in Hin. simpl in Hin.
    repeat (destruct Hin as [Hin|Hin]; [discriminate Hin|]). exact Hin.
Qed.

(** ** similarityMetric *)

(** C2 as stated fails: comparing ["ab"] with itself for [k = 1] collects
    ["a"] and ["ab"], and the metric is 3/2. *)
Lemma similarityMetric_above_one :
  similarityMetric (txt "ab") (txt "ab") 1 = Num (3 # 2) /\
  ~ in_unit_interval (similarityMetric (txt "ab") (txt "ab") 1).
Proof.
  assert (H : similarityMetric (txt "ab") (txt "ab") 1 = Num (3 # 2))
    by (vm_compute; reflexivity).
  split; [exact H|]. rewrite H.
  intros (q & [= <-] & _ & Hle). revert Hle. vm_compute. auto.
Qed.

(** C2, amended: when the two texts are not both empty and the summed
    lengths fit an [int], [similarityMetric A B k] is a number and it is
    not negative (it can exceed 1). *)
Theorem similarityMetric_nonneg (A B : text) (k : Z)
    (HA : fits (length A)) (HB : fits (length B))
    (Hne : A <> [] \/ B <> [])
    (Hsum : (Z.of_nat (sum_lengths (findCommonSubstrings A B k)) < 2 ^ 31)%Z) :
  exists q, similarityMetric A B k = Num q /\ (0 <= q)%Q.
Proof.
  eexists. split; [apply similarityMetric_num; assumption|].
  rewrite Qred_correct, total_length_exact by exact Hsum.
  apply Qdiv_inject_nonneg; [lia|].
  destruct Hne as [Hne|Hne]; [destruct A|destruct B];
    try contradiction; simpl; lia.
Qed.

Lemma similarityMetric_nonneg_witness :
  exists q, similarityMetric (txt "abcde") (txt "abcxy") 2 = Num q /\ (0 <= q)%Q.
Proof.
  apply similarityMetric_nonneg;
    [vm_compute; reflexivity|vm_compute; reflexivity
    |left; discriminate|vm_compute; reflexivity].
Defined.

(** Exchanging the two texts gives the same outcome: the same number, or
    the same division of zero by zero. *)
Lemma similarityMetric_symmetric (A B : text) (k : Z)
    (HA : fits (length A)) (HB : fits (length B)) :
  similarityMetric A B k = similarityMetric B A k.
Proof.
  unfold similarityMetric, findCommonSubstrings.
  rewrite (fcs_loops_sym A B k) by assumption.
  rewrite (Nat.max_comm (length A) (length B)). reflexivity.
Qed.

Lemma double_eqb_num_refl q : double_eqb (Num q) (Num q) = true.
Proof. apply Qeq_eq_bool. reflexivity. Qed.

Lemma double_eqb_NaN x : double_eqb NaN x = false.
Proof. reflexivity. Qed.

(** With at least one non-empty text the two results are numbers and
    compare equal with [==]. *)
Lemma similarityMetric_symmetric_nonempty (A B : text) (k : Z) :
  fits (length A) -> fits (length B) -> A <> [] \/ B <> [] ->
  double_eqb (similarityMetric A B k) (similarityMetric B A k) = true.
Proof.
  intros HA HB Hne.
  rewrite <- (similarityMetric_symmetric A B k HA HB).
  rewrite similarityMetric_num by assumption. apply double_eqb_num_refl.
Qed.

(** C8, evaluated at two empty texts: both calls divide zero by zero, and a
    NaN does not compare equal to itself, so [similarityMetric(A, B, k) ==
    similarityMetric(B, A, k)] is false there, for every minimum length. *)
Theorem similarityMetric_empty_texts_not_equal (k : Z) :
  similarityMetric [] [] k = NaN /\
  double_eqb (similarityMetric [] [] k) (similarityMetric [] [] k) = false.
Proof.
  assert (H : similarityMetric [] [] k = NaN) by (vm_compute; reflexivity).
  rewrite H. split; reflexivity.
Qed.

(** ** editDistance *)

(** C3: [editDistance A B] is the minimum number of single-character
    insertions, deletions and substitutions that turn [A] into [B]; for
    ["kitten"] and ["sitting"] it is 3. *)
Theorem editDistance_minimum (A B : text)
    (HA : fits (length A)) (HB : fits (length B)) :
  (exists d, editDistance A B = Z.of_nat d /\ min_edits A B d) /\
  editDistance (txt "kitten") (txt "sitting") = 3%Z.
Proof.
  split; [|vm_compute; reflexivity].
  exists (lev A B). split; [apply editDistance_lev; assumption|].
  apply lev_min_edits.
Qed.

Lemma editDistance_minimum_witness :
  (exists d, editDistance (txt "kitten") (txt "sitting") = Z.of_nat d
             /\ min_edits (txt "kitten") (txt "sitting") d) /\
  editDistance (txt "kitten") (txt "sitting") = 3%Z.
Proof.
  apply editDistance_minimum; vm_compute; reflexivity.
Defined.

(** C9: [editDistance] satisfies the triangle inequality. *)
Theorem editDistance_triangle (A B C : text)
    (HA : fits (length A)) (HB : fits (length B)) (HC : fits (length C)) :
  (editDistance A C <= editDistance A B + editDistance B C)%Z.
Proof.
  rewrite !editDistance_lev by assumption.
  pose proof (lev_triangle A B C). lia.
Qed.

Lemma editDistance_triangle_witness :
  (editDistance (txt "kitten") (txt "sitting")
   <= editDistance (txt "kitten") (txt "mitten")
      + editDistance (txt "mitten") (txt "sitting"))%Z.
Proof.
  apply editDistance_triangle; vm_compute; reflexivity.
Defined.

(** ** Empty texts *)

(** C4, evaluated at two empty texts: [editDistance] returns 0, but
    [similarityMetric] and [broderContainment] divide zero by zero, for
    every minimum length. *)
Theorem empty_texts_divide_by_zero (k : Z) :
  editDistance [] [] = 0%Z /\
  similarityMetric [] [] k = NaN /\
  broderContainment [] [] = NaN.
Proof. repeat split; vm_compute; reflexivity. Qed.

(** ** A text compared with itself *)

(** C5 as stated fails: for ["ab"] and [k = 1 <= 2] the metric of the text
    with itself is 3/2, not 1. *)
Lemma similarityMetric_self_not_one :
  (1 <= Z.of_nat (length (txt "ab")))%Z /\
  similarityMetric (txt "ab") (txt "ab") 1 <> Num 1.
Proof.
  assert (H : similarityMetric (txt "ab") (txt "ab") 1 = Num (3 # 2))
    by (vm_compute; reflexivity).
  rewrite H. split; [vm_compute; discriminate|discriminate].
Qed.

(** C5, amended: [editDistance A A] is 0; for a non-empty [A],
    [broderContainment A A] is 1 as long as the count of substrings fits an
    [int]; for a non-empty [A] and [k <= len A], [similarityMetric A A k] is
    at least 1 as long as the summed lengths fit an [int], and it is
    exactly 1 when [k = len A]. *)
Theorem self_comparison (A : text) (HA : fits (length A)) :
  editDistance A A = 0%Z /\
  (A <> [] -> (Z.of_nat (size (substrings_of A)) < 2 ^ 31)%Z ->
   broderContainment A A = Num 1) /\
  (forall k : Z, A <> [] -> (k <= Z.of_nat (length A))%Z ->
     (Z.of_nat (sum_lengths (findCommonSubstrings A A k)) < 2 ^ 31)%Z ->
     exists q, similarityMetric A A k = Num q /\ (1 <= q)%Q) /\
  (A <> [] -> similarityMetric A A (Z.of_nat (length A)) = Num 1).
Proof.
  split; [|split; [|split]].
  - rewrite editDistance_lev, lev_refl by assumption. reflexivity.
  - intros Hne Hsize. unfold broderContainment.
    rewrite count_contained_self by exact Hsize.
    apply double_div_self.
    pose proof (substrings_of_nonempty A Hne). lia.
  - intros k Hne Hk Hsum. eexists.
    split; [apply similarityMetric_num; auto|].
    rewrite Qred_correct, total_length_exact by exact Hsum.
    rewrite Nat.max_id. apply Qdiv_inject_ge_1.
    pose proof (sum_lengths_elem A _ (findCommonSubstrings_self A k HA Hne Hk)).
    destruct A; [contradiction|]. simpl in *. lia.
  - intros Hne. unfold similarityMetric.
    rewrite findCommonSubstrings_self_full by assumption.
    rewrite Nat.max_id, size_to_int_fits by assumption.
    assert (Hsum : sum_lengths [A] = length A)
      by (unfold sum_lengths; simpl; lia).
    rewrite total_length_exact; rewrite Hsum.
    + apply double_div_self. destruct A; [contradiction|]. simpl. lia.
    + unfold fits, max_int in HA. lia.
Qed.

Lemma self_comparison_witness :
  editDistance (txt "ab") (txt "ab") = 0%Z /\
  broderContainment (txt "ab") (txt "ab") = Num 1 /\
  (exists q, similarityMetric (txt "ab") (txt "ab") 1 = Num q /\ (1 <= q)%Q) /\
  similarityMetric (txt "ab") (txt "ab") 2 = Num 1.
Proof.
  destruct (self_comparison (txt "ab")) as (H1 & H2 & H3 & H4);
    [vm_compute; reflexivity|].
  split; [exact H1|]. split; [|split].
  - apply H2; [discriminate|vm_compute; reflexivity].
  - apply H3; [discriminate|vm_compute; discriminate|vm_compute; reflexivity].
  - apply H4. discriminate.
Defined.

(** ** generateSimilarityMatrix *)

(** The matrix returned by [generateSimilarityMatrix] is square, holds the
    same stored value in [(i, j)] and [(j, i)], and the number 0 on its
    diagonal. *)
Lemma generateSimilarityMatrix_symmetric (documents : list text) (minLength : Z)
    (i j : nat)
    (Hi : i < length (generateSimilarityMatrix documents minLength))
    (Hj : j < length (generateSimilarityMatrix documents minLength)) :
  length (generateSimilarityMatrix documents minLength !!! i)
    = length (generateSimilarityMatrix documents minLength) /\
  tget (generateSimilarityMatrix documents minLength) i j
    = tget (generateSimilarityMatrix documents minLength) j i /\
  tget (generateSimilarityMatrix documents minLength) i i = Num 0.
Proof.
  destruct (generateSimilarityMatrix_invariant documents minLength)
    as (Hok & Hsym & Hdiag).
  pose proof Hok as [Hlen _]. rewrite Hlen in Hi, Hj |- *.
  split; [eapply table_ok_row; eauto|]. split; [apply Hsym|apply Hdiag]; assumption.
Qed.

(** For two documents that are not both empty the two mirrored cells are
    numbers and compare equal with [==]; the diagonal compares equal to 0. *)
Lemma generateSimilarityMatrix_symmetric_nonempty (documents : list text)
    (minLength : Z) (i j : nat) :
  fits (length documents) -> i < j < length documents ->
  fits (length (documents !!! i)) -> fits (length (documents !!! j)) ->
  documents !!! i <> [] \/ documents !!! j <> [] ->
  double_eqb (tget (generateSimilarityMatrix documents minLength) i j)
             (tget (generateSimilarityMatrix documents minLength) j i) = true /\
  double_eqb (tget (generateSimilarityMatrix documents minLength) j i)
             (tget (generateSimilarityMatrix documents minLength) i j) = true /\
  double_eqb (tget (generateSimilarityMatrix documents minLength) i i) (Num 0)
    = true.
Proof.
  intros Hn Hij Hfi Hfj Hne.
  destruct (generateSimilarityMatrix_invariant documents minLength)
    as (_ & Hsym & Hdiag).
  assert (Hsize : Z.to_nat (size_to_int (length documents)) = length documents)
    by (rewrite size_to_int_fits by exact Hn; apply Nat2Z.id).
  rewrite Hsize in Hsym, Hdiag.
  rewrite (Hsym j i) by lia. rewrite (Hdiag i) by lia.
  rewrite generateSimilarityMatrix_values by (rewrite ?Hsize; lia).
  rewrite similarityMetric_num by assumption.
  repeat split; apply double_eqb_num_refl.
Qed.

(** C6, evaluated at a corpus of two empty documents: the diagonal is 0,
    but the two cells off the diagonal hold 0/0, and a NaN does not compare
    equal to itself, so [matrix[0][1] == matrix[1][0]] is false, for every
    minimum length. *)
Theorem generateSimilarityMatrix_two_empty_documents (minLength : Z) :
  generateSimilarityMatrix [[]; []] minLength
    = [[Num 0; NaN]; [NaN; Num 0]] /\
  double_eqb (tget (generateSimilarityMatrix [[]; []] minLength) 0 1)
             (tget (generateSimilarityMatrix [[]; []] minLength) 1 0) = false /\
  double_eqb (tget (generateSimilarityMatrix [[]; []] minLength) 0 0) (Num 0)
    = true /\
  double_eqb (tget (generateSimilarityMatrix [[]; []] minLength) 1 1) (Num 0)
    = true.
Proof.
  assert (H : generateSimilarityMatrix [[]; []] minLength
              = [[Num 0; NaN]; [NaN; Num 0]]) by (vm_compute; reflexivity).
  rewrite H. repeat split; reflexivity.
Qed.

Lemma generateSimilarityMatrix_length documents minLength :
  fits (length documents) ->
  length (generateSimilarityMatrix documents minLength) = length documents.
Proof.
  intros Hfit.
  destruct (generateSimilarityMatrix_invariant documents minLength) as ([Hlen _] & _).
  rewrite Hlen, size_to_int_fits by exact Hfit. apply Nat2Z.id.
Qed.

(** ** The ranking of [main] *)


(** When no two documents are both empty the matrix values along the
    ranked list never increase. *)
Lemma ranked_pairs_sorted documents minLength :
  fits (length documents) ->
  (forall d, d ∈ documents -> fits (length d)) ->
  (forall i j, i < j < length documents ->
     documents !!! i <> [] \/ documents !!! j <> []) ->
  non_increasing
    (values_along (generateSimilarityMatrix documents minLength)
       (ranked_pairs documents minLength)).
Proof.
  intros Hn Hdocs Hnonempty.
  set (M := generateSimilarityMatrix documents minLength).
  assert (Hnum : forall p, p ∈ all_pairs (length documents) ->
                 exists q, tget M p.1 p.2 = Num q).
  { intros [i j] Hp. apply all_pairs_spec in Hp. simpl.
    unfold M. rewrite generateSimilarityMatrix_values;
      [|lia|rewrite size_to_int_fits, Nat2Z.id by exact Hn; lia].
    eexists. apply similarityMetric_num.
    - apply Hdocs, list_elem_of_lookup_total_2. lia.
    - apply Hdocs, list_elem_of_lookup_total_2. lia.
    - apply Hnonempty. lia. }
  unfold non_increasing, values_along, ranked_pairs. fold M.
  apply StronglySorted_map.
  apply std_sort_sorted.
  - intros a b _ _. unfold comparePairs. apply double_gt_ge.
  - intros a b Ha Hb. unfold comparePairs.
    destruct (Hnum a Ha) as [qa ->], (Hnum b Hb) as [qb ->].
    apply double_not_gt_ge.
  - intros a b c Ha Hb Hc.
    destruct (Hnum a Ha) as [qa ->], (Hnum b Hb) as [qb ->],
             (Hnum c Hc) as [qc ->].
    apply double_ge_trans.
Qed.

(** A list that holds NaN and another entry is not non-increasing. *)
Lemma non_increasing_NaN l : non_increasing l -> NaN ∈ l -> l = [NaN].
Proof.
  unfold non_increasing. induction 1 as [|x l Hsorted IH Hx]; intros Hin.
  - inversion Hin.
  - destruct l as [|y l]; [apply list_elem_of_singleton in Hin; congruence|].
    exfalso. apply Forall_cons in Hx as [Hxy Hx].
    apply elem_of_cons in Hin as [<-|Hin].
    + rewrite double_ge_NaN_l in Hxy. discriminate.
    + specialize (IH Hin). injection IH as -> ->.
      rewrite double_ge_NaN_r in Hxy. discriminate.
Qed.

(** C7, evaluated at the corpus of two empty documents and ["a"]: the three
    pairs are ranked, but the similarity of the two empty documents is 0/0,
    so the values along the ranked list are NaN, 0, 0 and they are not
    non-increasing; no other order of the three pairs would be either. *)
Theorem main_ranking_two_empty_documents :
  main_ranking [[]; []; txt "a"] = [(0, 1); (0, 2); (1, 2)] /\
  values_along (generateSimilarityMatrix [[]; []; txt "a"] 5)
    (main_ranking [[]; []; txt "a"]) = [NaN; Num 0; Num 0] /\
  ~ non_increasing
      (values_along (generateSimilarityMatrix [[]; []; txt "a"] 5)
         (main_ranking [[]; []; txt "a"])) /\
  forall ps, ps ≡ₚ all_pairs 3 ->
    ~ non_increasing (values_along (generateSimilarityMatrix [[]; []; txt "a"] 5) ps).
Proof.
  assert (HM : generateSimilarityMatrix [[]; []; txt "a"] 5
               = [[Num 0; NaN; Num 0]; [NaN; Num 0; Num 0]; [Num 0; Num 0; Num 0]])
    by (vm_compute; reflexivity).
  assert (HR : main_ranking [[]; []; txt "a"] = [(0, 1); (0, 2); (1, 2)])
    by (vm_compute; reflexivity).
  rewrite HR, HM. split; [reflexivity|]. split; [reflexivity|].
  assert (Hany : forall ps, ps ≡ₚ all_pairs 3 ->
    ~ non_increasing (values_along
        [[Num 0; NaN; Num 0]; [NaN; Num 0; Num 0]; [Num 0; Num 0; Num 0]] ps)).
  { intros ps Hps Hsorted.
    apply non_increasing_NaN in Hsorted.
    - apply (f_equal length) in Hsorted.
      unfold values_along in Hsorted. rewrite length_map, Hps in Hsorted.
      discriminate Hsorted.
    - unfold values_along. apply list_elem_of_In, in_map_iff.
      exists (0, 1). split; [reflexivity|].
      apply list_elem_of_In. rewrite Hps. apply all_pairs_spec. lia. }
  split; [|exact Hany].
  apply Hany. reflexivity.
Qed.

(** ** Scenarios *)

(** The documents ["abcde"] and ["abcxy"] with minimum length 2: the strings
    collected are ["ab"] and ["abc"], and the metric is (2 + 3) / 5. *)
Example scenario_abcde_abcxy :
  findCommonSubstrings (txt "abcde") (txt "abcxy") 2 ≡ₚ [txt "ab"; txt "abc"] /\
  similarityMetric (txt "abcde") (txt "abcxy") 2 = Num 1.
Proof.
  assert (E : findCommonSubstrings (txt "abcde") (txt "abcxy") 2
              = [txt "abc"; txt "ab"]) by (vm_compute; reflexivity).
  rewrite E. split; [apply perm_swap|vm_compute; reflexivity].
Qed.

(** A corpus of five documents is ranked into ten pairs. *)
Example scenario_five_documents :
  length (main_ranking [txt "alpha"; txt "beta"; txt "gamma"; txt "delta"; txt "alphabet"])
  = choose2 5.
Proof. vm_compute. reflexivity. Qed.

(** * Further properties of the code *)

(** ** findCommonSubstrings: the strings collected *)

Lemma for_loop_id {S : Type} lo n (body : nat -> S -> S) s :
  (forall i s', body i s' = s') -> for_loop lo n body s = s.
Proof.
  intros Hid. induction n as [|n IH]; [reflexivity|].
  rewrite for_loop_succ, Hid. exact IH.
Qed.

Lemma cpl_prefix_le (p s t : text) :
  p `prefix_of` s -> p `prefix_of` t -> length p <= common_prefix_length s t.
Proof.
  revert s t. induction p as [|c p IH]; intros s t Hs Ht; simpl; [lia|].
  destruct s as [|a s]; [apply prefix_nil_not in Hs; contradiction|].
  destruct t as [|b t]; [apply prefix_nil_not in Ht; contradiction|].
  pose proof (prefix_cons_inv_1 _ _ _ _ Hs). pose proof (prefix_cons_inv_1 _ _ _ _ Ht).
  apply prefix_cons_inv_2 in Hs, Ht. subst. simpl.
  rewrite decide_True by reflexivity. specialize (IH s t Hs Ht). lia.
Qed.

Lemma suffix_is_drop (x s : text) :
  x `suffix_of` s -> x = drop (length s - length x) s.
Proof.
  intros [k ->]. rewrite length_app.
  replace (length k + length x - length x) with (length k) by lia.
  rewrite drop_app_length. reflexivity.
Qed.

Lemma substr_suffix_take (A : text) i d :
  d <= i -> i <= length A -> substr A (i - d) d = drop (i - d) (take i A).
Proof.
  intros Hd Hi. unfold substr. rewrite take_drop_commute.
  replace (i - d + d) with i by lia. reflexivity.
Qed.

(** The string read off cell [(i, j)] is the longest common suffix of the
    two prefixes. *)
Lemma csl_longest A B i j :
  i <= length A -> j <= length B ->
  longest_common_suffix
    (substr A (i - common_suffix_length A B i j) (common_suffix_length A B i j))
    (take i A) (take j B).
Proof.
  intros Hi Hj.
  pose proof (csl_le_l A B i j) as Hl. pose proof (csl_le_r A B i j) as Hr.
  split; [|split].
  - rewrite substr_suffix_take by assumption. apply suffix_drop.
  - rewrite csl_substr, substr_suffix_take by assumption. apply suffix_drop.
  - intros y Hy1 Hy2. rewrite substr_length by lia.
    apply suffix_prefix_reverse in Hy1, Hy2.
    rewrite <- (length_reverse y). apply cpl_prefix_le; assumption.
Qed.

Lemma longest_common_suffix_unique x x' s t :
  longest_common_suffix x s t -> longest_common_suffix x' s t -> x = x'.
Proof.
  intros (Hs & Ht & Hmax) (Hs' & Ht' & Hmax').
  pose proof (Hmax x' Hs' Ht'). pose proof (Hmax' x Hs Ht).
  rewrite (suffix_is_drop x s Hs), (suffix_is_drop x' s Hs').
  f_equal. lia.
Qed.

Lemma csl_pred A B i j d :
  i <= length A -> j <= length B ->
  common_suffix_length A B i j = S d ->
  1 <= i /\ 1 <= j /\ char_at A (i - 1) = char_at B (j - 1) /\
  common_suffix_length A B (i - 1) (j - 1) = d.
Proof.
  intros Hi Hj HL.
  destruct i as [|i]; [rewrite csl_0_l in HL; discriminate|].
  destruct j as [|j]; [rewrite csl_0_r in HL; discriminate|].
  rewrite csl_succ in HL by lia. simpl. rewrite !Nat.sub_0_r.
  destruct (decide (char_at A i = char_at B j)); [|discriminate].
  repeat split; try lia; assumption.
Qed.

Lemma csl_shift A B i j t :
  i <= length A -> j <= length B -> t <= common_suffix_length A B i j ->
  common_suffix_length A B (i - t) (j - t) = common_suffix_length A B i j - t.
Proof.
  intros Hi Hj. induction t as [|t IH]; intros Ht.
  - rewrite !Nat.sub_0_r. reflexivity.
  - specialize (IH ltac:(lia)).
    destruct (csl_pred A B (i - t) (j - t)
                (common_suffix_length A B i j - S t)) as (H1 & H2 & _ & HL);
      [lia|lia|rewrite IH; lia|].
    replace (i - S t) with (i - t - 1) by lia.
    replace (j - S t) with (j - t - 1) by lia. exact HL.
Qed.

(** X1: the vector returned by [findCommonSubstrings A B k] holds exactly
    the non-empty texts of at least [k] characters that are the longest
    common suffix of a prefix of [A] and a prefix of [B]. *)
Theorem findCommonSubstrings_longest_suffixes (A B : text) (k : Z) (x : text)
    (HA : fits (length A)) (HB : fits (length B)) :
  x ∈ findCommonSubstrings A B k <->
  x <> [] /\ (k <= Z.of_nat (length x))%Z /\
  exists i j, i <= length A /\ j <= length B /\
    longest_common_suffix x (take i A) (take j B).
Proof.
  rewrite findCommonSubstrings_spec by assumption. split.
  - intros (i & j & Hi & Hj & H1 & Hk & ->).
    pose proof (csl_le_l A B i j) as Hl.
    rewrite substr_length by lia. split; [|split; [exact Hk|]].
    + intros Hnil. apply (f_equal length) in Hnil.
      rewrite substr_length in Hnil by lia. simpl in Hnil. lia.
    + exists i, j. split; [exact Hi|]. split; [exact Hj|].
      apply csl_longest; assumption.
  - intros (Hne & Hk & i & j & Hi & Hj & Hlcs).
    pose proof (longest_common_suffix_unique _ _ _ _ Hlcs
                  (csl_longest A B i j Hi Hj)) as Hx.
    pose proof (csl_le_l A B i j) as Hl.
    assert (Hlen : length x = common_suffix_length A B i j).
    { rewrite Hx at 1. apply substr_length. lia. }
    exists i, j. split; [exact Hi|]. split; [exact Hj|].
    unfold inserted_at. rewrite <- Hlen. split; [|split; [exact Hk|]].
    + destruct x; [contradiction|]. simpl. lia.
    + rewrite Hlen. exact Hx.
Qed.

Lemma findCommonSubstrings_longest_suffixes_witness :
  txt "abc" ∈ findCommonSubstrings (txt "abcde") (txt "abcxy") 2 <->
  txt "abc" <> [] /\ (2 <= Z.of_nat (length (txt "abc")))%Z /\
  exists i j, i <= length (txt "abcde") /\ j <= length (txt "abcxy") /\
    longest_common_suffix (txt "abc") (take i (txt "abcde")) (take j (txt "abcxy")).
Proof.
  apply findCommonSubstrings_longest_suffixes; vm_compute; reflexivity.
Defined.

(** X2: an empty text on either side gives an empty vector, whatever the
    minimum length and the other text (of a length that fits an [int])
    are. *)
Theorem findCommonSubstrings_empty (A : text) (k : Z) (HA : fits (length A)) :
  findCommonSubstrings [] A k = [] /\ findCommonSubstrings A [] k = [].
Proof.
  assert (H0 : size_to_int 0 = 0%Z) by (vm_compute; reflexivity).
  unfold findCommonSubstrings, fcs_loops. simpl length.
  rewrite H0, (size_to_int_fits _ HA). split.
  - reflexivity.
  - rewrite (for_loop_id 1 _ (fun i => for_loop 1 (Z.to_nat 0) _)).
    + reflexivity.
    + intros i s. reflexivity.
Qed.

Lemma findCommonSubstrings_empty_witness :
  findCommonSubstrings [] (txt "abcde") 2 = [] /\
  findCommonSubstrings (txt "abcde") [] 2 = [].
Proof. apply findCommonSubstrings_empty. vm_compute. reflexivity. Defined.

(** X3: a minimum length of 1 or less acts as 1: every run of matching
    characters is collected. *)
Theorem findCommonSubstrings_min_length_clamped (A B : text) (k : Z)
    (HA : fits (length A)) (HB : fits (length B)) (Hk : (k <= 1)%Z) :
  findCommonSubstrings A B k = findCommonSubstrings A B 1.
Proof.
  unfold findCommonSubstrings. f_equal. apply set_eq. intros x.
  rewrite !fcs_loops_spec by assumption.
  unfold inserted_at. split.
  - intros (i & j & Hi & Hj & H1 & _ & Hx). exists i, j.
    repeat split; try assumption; lia.
  - intros (i & j & Hi & Hj & H1 & _ & Hx). exists i, j.
    repeat split; try assumption; lia.
Qed.

Lemma findCommonSubstrings_min_length_clamped_witness :
  findCommonSubstrings (txt "abcde") (txt "abcxy") (-3)
  = findCommonSubstrings (txt "abcde") (txt "abcxy") 1.
Proof.
  apply findCommonSubstrings_min_length_clamped; vm_compute;
    first [reflexivity|discriminate].
Defined.

(** X4: raising the minimum length only filters the vector: for [k <= k']
    the strings returned for [k'] are those returned for [k] that have at
    least [k'] characters. *)
Theorem findCommonSubstrings_min_length_filter (A B : text) (k k' : Z) (x : text)
    (HA : fits (length A)) (HB : fits (length B)) (Hk : (k <= k')%Z) :
  x ∈ findCommonSubstrings A B k' <->
  x ∈ findCommonSubstrings A B k /\ (k' <= Z.of_nat (length x))%Z.
Proof.
  rewrite !findCommonSubstrings_spec by assumption. unfold inserted_at. split.
  - intros (i & j & Hi & Hj & H1 & Hk' & ->).
    pose proof (csl_le_l A B i j).
    rewrite substr_length by lia. split; [|exact Hk'].
    exists i, j. repeat split; try assumption; lia.
  - intros [(i & j & Hi & Hj & H1 & _ & ->) Hk'].
    pose proof (csl_le_l A B i j).
    rewrite substr_length in Hk' by lia.
    exists i, j. repeat split; try assumption; lia.
Qed.

Lemma findCommonSubstrings_min_length_filter_witness :
  txt "abc" ∈ findCommonSubstrings (txt "abcde") (txt "abcxy") 3 <->
  txt "abc" ∈ findCommonSubstrings (txt "abcde") (txt "abcxy") 2
  /\ (3 <= Z.of_nat (length (txt "abc")))%Z.
Proof.
  apply findCommonSubstrings_min_length_filter; vm_compute;
    first [reflexivity|discriminate].
Defined.

(** X5: with a returned string, its prefixes of at least [k] characters
    (and at least one) are returned too. *)
Theorem findCommonSubstrings_prefix_closed (A B : text) (k : Z) (x : text) (l : nat)
    (HA : fits (length A)) (HB : fits (length B))
    (Hx : x ∈ findCommonSubstrings A B k)
    (Hl1 : 1 <= l) (Hlk : (k <= Z.of_nat l)%Z) (Hlx : l <= length x) :
  take l x ∈ findCommonSubstrings A B k.
Proof.
  apply findCommonSubstrings_spec in Hx; try assumption.
  apply findCommonSubstrings_spec; try assumption.
  destruct Hx as (i & j & Hi & Hj & H1 & Hk & ->).
  pose proof (csl_le_l A B i j) as Hle. pose proof (csl_le_r A B i j) as Hler.
  rewrite substr_length in Hlx by lia.
  set (d := common_suffix_length A B i j) in *.
  exists (i - (d - l)), (j - (d - l)).
  split; [lia|]. split; [lia|].
  unfold inserted_at. fold d. rewrite (csl_shift A B i j (d - l)) by (fold d; lia).
  fold d. replace (d - (d - l)) with l by lia.
  split; [exact Hl1|]. split; [exact Hlk|].
  unfold substr. rewrite take_take.
  replace (i - (d - l) - l) with (i - d) by lia.
  rewrite Nat.min_l by lia. reflexivity.
Qed.

Lemma findCommonSubstrings_prefix_closed_witness :
  take 2 (txt "abc") ∈ findCommonSubstrings (txt "abcde") (txt "abcxy") 2.
Proof.
  assert (E : findCommonSubstrings (txt "abcde") (txt "abcxy") 2
              = [txt "abc"; txt "ab"]) by (vm_compute; reflexivity).
  apply findCommonSubstrings_prefix_closed;
    [vm_compute; reflexivity|vm_compute; reflexivity
    |rewrite E; left|lia|lia|simpl; lia].
Defined.

(** Every returned string is a common substring of the asked length. *)
Lemma findCommonSubstrings_elem (A B : text) (k : Z) (x : text) :
  fits (length A) -> fits (length B) ->
  x ∈ findCommonSubstrings A B k ->
  common_substring x A B /\ 1 <= length x /\ (k <= Z.of_nat (length x))%Z.
Proof.
  intros HA HB Hx. apply findCommonSubstrings_spec in Hx; try assumption.
  destruct Hx as (i & j & Hi & Hj & H1 & Hk & Hx).
  pose proof (csl_le_l A B i j) as Hl.
  assert (Hlen : length x = common_suffix_length A B i j).
  { rewrite Hx. apply substr_length. lia. }
  rewrite Hlen. split; [split|split; assumption].
  - rewrite Hx. apply substr_occurs.
  - rewrite Hx, csl_substr by assumption. apply substr_occurs.
Qed.

Lemma common_substring_covered (A B : text) (k : Z) (y : text) :
  fits (length A) -> fits (length B) ->
  common_substring y A B ->
  1 <= length y -> (k <= Z.of_nat (length y))%Z ->
  exists x, x ∈ findCommonSubstrings A B k /\ y `suffix_of` x /\ occurs_in y x.
Proof.
  intros HA HB Hy Hy1 Hyk.
  destruct Hy as [(pre1 & post1 & ->) (pre2 & post2 & ->)].
  set (A := pre1 ++ y ++ post1) in *. set (B := pre2 ++ y ++ post2) in *.
  set (i := length pre1 + length y). set (j := length pre2 + length y).
  assert (Hi : i <= length A) by (unfold A, i; rewrite !length_app; lia).
  assert (Hj : j <= length B) by (unfold B, j; rewrite !length_app; lia).
  assert (HyA : y `suffix_of` take i A).
  { exists pre1. unfold A, i. rewrite (assoc_L (++)), take_app_length'; [reflexivity|].
    rewrite length_app. reflexivity. }
  assert (HyB : y `suffix_of` take j B).
  { exists pre2. unfold B, j. rewrite (assoc_L (++)), take_app_length'; [reflexivity|].
    rewrite length_app. reflexivity. }
  destruct (csl_longest A B i j Hi Hj) as (HxA & HxB & Hmax).
  pose proof (Hmax y HyA HyB) as Hlen.
  pose proof (csl_le_l A B i j) as Hle.
  rewrite substr_length in Hlen by lia.
  exists (substr A (i - common_suffix_length A B i j) (common_suffix_length A B i j)).
  assert (Hsuf : y `suffix_of`
            substr A (i - common_suffix_length A B i j) (common_suffix_length A B i j)).
  { destruct (suffix_weak_total _ _ _ HyA HxA) as [H|H]; [exact H|].
    apply suffix_length_eq in H; [rewrite H; reflexivity|].
    rewrite substr_length by lia. exact Hlen. }
  split; [|split; [exact Hsuf|]].
  - apply findCommonSubstrings_spec; try assumption.
    exists i, j. split; [exact Hi|]. split; [exact Hj|].
    unfold inserted_at. repeat split; lia.
  - destruct Hsuf as [pre Hpre]. exists pre, []. rewrite app_nil_r. exact Hpre.
Qed.

(** X6: every common substring of at least [k] characters (and at least
    one) ends a returned string, so it occurs in one. *)
Theorem findCommonSubstrings_covers (A B : text) (k : Z) (y : text)
    (HA : fits (length A)) (HB : fits (length B))
    (Hy : common_substring y A B)
    (Hy1 : 1 <= length y) (Hyk : (k <= Z.of_nat (length y))%Z) :
  exists x, x ∈ findCommonSubstrings A B k /\ y `suffix_of` x /\ occurs_in y x.
Proof. apply common_substring_covered; assumption. Qed.

Lemma findCommonSubstrings_covers_witness :
  exists x, x ∈ findCommonSubstrings (txt "abcde") (txt "abcxy") 2
            /\ txt "bc" `suffix_of` x /\ occurs_in (txt "bc") x.
Proof.
  apply findCommonSubstrings_covers.
  - vm_compute; reflexivity.
  - vm_compute; reflexivity.
  - split; [exists (txt "a"), (txt "de")|exists (txt "a"), (txt "xy")]; reflexivity.
  - simpl. lia.
  - vm_compute. discriminate.
Defined.

Lemma size_list_to_set_le (l : list text) :
  size (list_to_set l : gset text) <= length l.
Proof.
  induction l as [|x l IH].
  - rewrite list_to_set_nil, size_empty. reflexivity.
  - rewrite list_to_set_cons, size_union_alt, size_singleton. simpl.
    assert (Hsub : (list_to_set l : gset text) ∖ {[x]} ⊆ list_to_set l)
      by apply subseteq_difference_l, reflexivity.
    apply subseteq_size in Hsub. lia.
Qed.

Lemma sum_lengths_le (v : list text) b :
  (forall x, x ∈ v -> length x <= b) -> sum_lengths v <= length v * b.
Proof.
  unfold sum_lengths. induction v as [|x v IH]; intros Hb; simpl; [lia|].
  pose proof (Hb x ltac:(left)).
  specialize (IH ltac:(intros y Hy; apply Hb; right; exact Hy)). lia.
Qed.

Lemma fcs_size_bounds (A B : text) (k : Z) :
  fits (length A) -> fits (length B) ->
  length (findCommonSubstrings A B k) <= length A * length B /\
  (forall x, x ∈ findCommonSubstrings A B k ->
     length x <= Nat.min (length A) (length B)) /\
  sum_lengths (findCommonSubstrings A B k)
    <= length A * length B * Nat.min (length A) (length B).
Proof.
  intros HA HB.
  assert (Hlen : forall x, x ∈ findCommonSubstrings A B k ->
                 length x <= Nat.min (length A) (length B)).
  { intros x Hx. apply findCommonSubstrings_spec in Hx; try assumption.
    destruct Hx as (i & j & Hi & Hj & _ & _ & ->).
    pose proof (csl_le_l A B i j). pose proof (csl_le_r A B i j).
    rewrite substr_length by lia. lia. }
  assert (Hcount : length (findCommonSubstrings A B k) <= length A * length B).
  { unfold findCommonSubstrings. change (length (elements ?X)) with (size X).
    set (g := fun p : nat * nat =>
      substr A (p.1 - common_suffix_length A B p.1 p.2)
               (common_suffix_length A B p.1 p.2)).
    set (cells := list_prod (seq 1 (length A)) (seq 1 (length B))).
    etransitivity; [apply (subseteq_size _ (list_to_set (map g cells)))|].
    - intros x Hx. apply fcs_loops_spec in Hx; try assumption.
      destruct Hx as (i & j & Hi & Hj & H1 & _ & ->).
      pose proof (csl_le_l A B i j). pose proof (csl_le_r A B i j).
      apply elem_of_list_to_set, list_elem_of_In, in_map_iff.
      exists (i, j). split; [reflexivity|].
      apply in_prod; apply in_seq; lia.
    - etransitivity; [apply size_list_to_set_le|].
      unfold cells. rewrite length_map, length_prod, !length_seq. lia. }
  split; [exact Hcount|]. split; [exact Hlen|].
  etransitivity; [apply sum_lengths_le, Hlen|].
  apply Nat.mul_le_mono_r, Hcount.
Qed.

(** X7: at most [|A| * |B|] strings are returned, none longer than the
    shorter text, so their lengths sum to at most
    [|A| * |B| * min (|A|) (|B|)]. *)
Theorem findCommonSubstrings_size_bound (A B : text) (k : Z)
    (HA : fits (length A)) (HB : fits (length B)) :
  length (findCommonSubstrings A B k) <= length A * length B /\
  (forall x, x ∈ findCommonSubstrings A B k ->
     length x <= Nat.min (length A) (length B)) /\
  sum_lengths (findCommonSubstrings A B k)
    <= length A * length B * Nat.min (length A) (length B).
Proof. apply fcs_size_bounds; assumption. Qed.

Lemma findCommonSubstrings_size_bound_witness :
  length (findCommonSubstrings (txt "abcde") (txt "abcxy") 2) <= 5 * 5 /\
  (forall x, x ∈ findCommonSubstrings (txt "abcde") (txt "abcxy") 2 ->
     length x <= Nat.min 5 5) /\
  sum_lengths (findCommonSubstrings (txt "abcde") (txt "abcxy") 2)
    <= 5 * 5 * Nat.min 5 5.
Proof.
  apply (findCommonSubstrings_size_bound (txt "abcde") (txt "abcxy") 2);
    vm_compute; reflexivity.
Defined.

(** ** similarityMetric: further properties *)

Lemma Qred_zero_div b : Qred (inject_Z 0 / inject_Z b) = 0%Q.
Proof.
  change (Qred (inject_Z 0 / inject_Z b) = Qred 0). apply Qred_complete.
  unfold Qdiv. apply Qmult_0_l.
Qed.

Lemma Qdiv_inject_pos a b :
  (0 < a)%Z -> (0 < b)%Z -> (0 < inject_Z a / inject_Z b)%Q.
Proof.
  intros Ha Hb. apply Qlt_shift_div_l.
  - change 0%Q with (inject_Z 0). rewrite <- Zlt_Qlt. exact Hb.
  - rewrite Qmult_0_l. change 0%Q with (inject_Z 0). rewrite <- Zlt_Qlt. exact Ha.
Qed.

Lemma max_length_pos (A B : text) :
  A <> [] \/ B <> [] -> (0 < Z.of_nat (Nat.max (length A) (length B)))%Z.
Proof.
  intros [Hne|Hne]; [destruct A|destruct B]; try contradiction; simpl; lia.
Qed.

(** X8: for texts that are not both empty, [similarityMetric A B k] is 0
    exactly when the texts share no substring of at least [k] characters
    (and at least one). *)
Theorem similarityMetric_zero_iff (A B : text) (k : Z)
    (HA : fits (length A)) (HB : fits (length B))
    (Hne : A <> [] \/ B <> [])
    (Hsum : (Z.of_nat (sum_lengths (findCommonSubstrings A B k)) < 2 ^ 31)%Z) :
  similarityMetric A B k = Num 0 <->
  ~ exists y, common_substring y A B /\ 1 <= length y /\ (k <= Z.of_nat (length y))%Z.
Proof.
  rewrite similarityMetric_num by assumption.
  rewrite total_length_exact by exact Hsum.
  pose proof (max_length_pos A B Hne) as Hmax.
  split.
  - intros Hzero (y & Hy & Hy1 & Hyk).
    destruct (common_substring_covered A B k y HA HB Hy Hy1 Hyk)
      as (x & Hx & Hsuf & _).
    pose proof (sum_lengths_elem x _ Hx) as Hle.
    pose proof (suffix_length _ _ Hsuf) as Hlen.
    injection Hzero as Hzero.
    pose proof (Qdiv_inject_pos
      (Z.of_nat (sum_lengths (findCommonSubstrings A B k)))
      (Z.of_nat (Nat.max (length A) (length B))) ltac:(lia) Hmax) as Hpos.
    rewrite <- (Qred_correct (inject_Z _ / inject_Z _)), Hzero in Hpos.
    exact (Qlt_irrefl 0 Hpos).
  - intros Hnone.
    assert (Hnil : findCommonSubstrings A B k = []).
    { destruct (findCommonSubstrings A B k) as [|x v] eqn:E; [reflexivity|].
      exfalso. apply Hnone. exists x.
      destruct (findCommonSubstrings_elem A B k x HA HB ltac:(rewrite E; left))
        as (Hcs & H1 & Hk).
      split; [exact Hcs|]. split; assumption. }
    rewrite Hnil. change (Z.of_nat (sum_lengths [])) with 0%Z.
    rewrite Qred_zero_div. reflexivity.
Qed.

Lemma similarityMetric_zero_iff_witness :
  similarityMetric (txt "abc") (txt "xyz") 1 = Num 0 <->
  ~ exists y, common_substring y (txt "abc") (txt "xyz") /\ 1 <= length y
              /\ (1 <= Z.of_nat (length y))%Z.
Proof.
  apply similarityMetric_zero_iff;
    [vm_compute; reflexivity|vm_compute; reflexivity
    |left; discriminate|vm_compute; reflexivity].
Defined.

(** X9: the metric does not depend on the order in which the unordered set
    is traversed: any rearrangement of the vector gives the same quotient. *)
Theorem similarityMetric_order_independent (A B : text) (k : Z) (v : list text)
    (Hv : v ≡ₚ findCommonSubstrings A B k) :
  double_div (total_length v) (size_to_int (Nat.max (length A) (length B)))
  = similarityMetric A B k.
Proof.
  unfold similarityMetric. rewrite (total_length_perm _ _ Hv). reflexivity.
Qed.

Lemma similarityMetric_order_independent_witness :
  double_div (total_length [txt "ab"; txt "abc"])
    (size_to_int (Nat.max (length (txt "abcde")) (length (txt "abcxy"))))
  = similarityMetric (txt "abcde") (txt "abcxy") 2.
Proof.
  assert (E : findCommonSubstrings (txt "abcde") (txt "abcxy") 2
              = [txt "abc"; txt "ab"]) by (vm_compute; reflexivity).
  apply similarityMetric_order_independent. rewrite E. apply perm_swap.
Defined.

(** X10: the metric is a number unless both texts are empty; the division
    by zero happens in that case only. *)
Theorem similarityMetric_NaN_iff (A B : text) (k : Z)
    (HA : fits (length A)) (HB : fits (length B)) :
  similarityMetric A B k = NaN <-> A = [] /\ B = [].
Proof.
  split.
  - intros HNaN. destruct A as [|a A].
    + destruct B as [|b B]; [split; reflexivity|].
      rewrite similarityMetric_num in HNaN by (auto; right; discriminate).
      discriminate.
    + rewrite similarityMetric_num in HNaN by (auto; left; discriminate).
      discriminate.
  - intros [-> ->]. vm_compute. reflexivity.
Qed.

Lemma similarityMetric_NaN_iff_witness :
  similarityMetric (txt "abc") [] 5 = NaN <-> txt "abc" = [] /\ @nil ascii = [].
Proof.
  apply similarityMetric_NaN_iff; vm_compute; reflexivity.
Defined.

(** X11: for texts small enough that [|A| * |B| * min (|A|) (|B|)] fits an
    [int] (and not both empty), the accumulated total cannot overflow: the
    metric is a number between 0 and the square of the shorter length. *)
Theorem similarityMetric_bounded (A B : text) (k : Z)
    (HA : fits (length A)) (HB : fits (length B))
    (Hne : A <> [] \/ B <> [])
    (Hsmall : (Z.of_nat (length A * length B * Nat.min (length A) (length B))
               < 2 ^ 31)%Z) :
  exists q, similarityMetric A B k = Num q /\ (0 <= q)%Q /\
    (q <= inject_Z (Z.of_nat (Nat.min (length A) (length B)
                              * Nat.min (length A) (length B))))%Q.
Proof.
  destruct (fcs_size_bounds A B k HA HB) as (_ & _ & Hsum).
  pose proof (max_length_pos A B Hne) as Hmax.
  eexists. split; [apply similarityMetric_num; assumption|].
  rewrite Qred_correct, total_length_exact by lia.
  split; [apply Qdiv_inject_nonneg; lia|].
  apply Qle_shift_div_r.
  - change 0%Q with (inject_Z 0). rewrite <- Zlt_Qlt. exact Hmax.
  - rewrite <- inject_Z_mult, <- Zle_Qle.
    destruct (Nat.max_spec (length A) (length B)) as [[? ->]|[? ->]];
      destruct (Nat.min_spec (length A) (length B)) as [[? Hmin]|[? Hmin]];
      rewrite Hmin in *; nia.
Qed.

Lemma similarityMetric_bounded_witness :
  exists q, similarityMetric (txt "abcde") (txt "abcxy") 2 = Num q /\ (0 <= q)%Q /\
    (q <= inject_Z (Z.of_nat (Nat.min (length (txt "abcde")) (length (txt "abcxy"))
                              * Nat.min (length (txt "abcde")) (length (txt "abcxy")))))%Q.
Proof.
  apply similarityMetric_bounded;
    [vm_compute; reflexivity|vm_compute; reflexivity
    |left; discriminate|vm_compute; reflexivity].
Defined.

(** ** editDistance: further properties *)

Lemma edit1_length s t :
  edit1 s t -> length s <= S (length t) /\ length t <= S (length s).
Proof.
  intros [l1 c l2|l1 c l2|l1 c c' l2 _]; rewrite !length_app; simpl; lia.
Qed.

Lemma edits_length n s t :
  edits n s t -> length s <= length t + n /\ length t <= length s + n.
Proof.
  induction 1 as [s|n s t u Hst _ IH]; [lia|].
  apply edit1_length in Hst. lia.
Qed.

Lemma lev_length_diff s t :
  length s <= length t + lev s t /\ length t <= length s + lev s t.
Proof. apply edits_length, lev_reached. Qed.

Lemma lev_zero s t : lev s t = 0 -> s = t.
Proof.
  intros H. pose proof (lev_reached s t) as He. rewrite H in He.
  inversion He. reflexivity.
Qed.

Lemma lev_app_prefix p s t : lev (p ++ s) (p ++ t) = lev s t.
Proof.
  induction p as [|c p IH]; [reflexivity|].
  simpl. rewrite lev_same_head. exact IH.
Qed.

Lemma lev_app_suffix u s t : lev (s ++ u) (t ++ u) = lev s t.
Proof.
  rewrite <- (lev_reverse (s ++ u)), !reverse_app, lev_app_prefix.
  apply lev_reverse.
Qed.

(** X12: [editDistance] gives the same value when its two texts are
    exchanged. *)
Theorem editDistance_symmetric (A B : text)
    (HA : fits (length A)) (HB : fits (length B)) :
  editDistance A B = editDistance B A.
Proof.
  rewrite !editDistance_lev by assumption. f_equal. apply lev_sym.
Qed.

Lemma editDistance_symmetric_witness :
  editDistance (txt "kitten") (txt "sitting")
  = editDistance (txt "sitting") (txt "kitten").
Proof. apply editDistance_symmetric; vm_compute; reflexivity. Defined.

(** X13: [editDistance A B] lies between the difference of the two lengths
    and the larger length. *)
Theorem editDistance_bounds (A B : text)
    (HA : fits (length A)) (HB : fits (length B)) :
  (Z.abs (Z.of_nat (length A) - Z.of_nat (length B)) <= editDistance A B)%Z /\
  (editDistance A B <= Z.of_nat (Nat.max (length A) (length B)))%Z.
Proof.
  rewrite editDistance_lev by assumption.
  pose proof (lev_length_diff A B). pose proof (lev_le_max A B). lia.
Qed.

Lemma editDistance_bounds_witness :
  (Z.abs (Z.of_nat (length (txt "kitten")) - Z.of_nat (length (txt "sitting")))
   <= editDistance (txt "kitten") (txt "sitting"))%Z /\
  (editDistance (txt "kitten") (txt "sitting")
   <= Z.of_nat (Nat.max (length (txt "kitten")) (length (txt "sitting"))))%Z.
Proof. apply editDistance_bounds; vm_compute; reflexivity. Defined.

(** X14: [editDistance A B] is 0 exactly when the two texts are equal. *)
Theorem editDistance_zero_iff (A B : text)
    (HA : fits (length A)) (HB : fits (length B)) :
  editDistance A B = 0%Z <-> A = B.
Proof.
  rewrite editDistance_lev by assumption. split.
  - intros H. apply lev_zero. lia.
  - intros ->. rewrite lev_refl. reflexivity.
Qed.

Lemma editDistance_zero_iff_witness :
  editDistance (txt "kitten") (txt "sitting") = 0%Z <-> txt "kitten" = txt "sitting".
Proof. apply editDistance_zero_iff; vm_compute; reflexivity. Defined.

(** Against the empty text the distance is the length of the other text,
    on either side. *)
Lemma editDistance_empty (A : text) (HA : fits (length A)) :
  editDistance A [] = Z.of_nat (length A) /\
  editDistance [] A = Z.of_nat (length A).
Proof.
  assert (H0 : fits (length (@nil ascii))) by (vm_compute; reflexivity).
  rewrite !editDistance_lev by assumption.
  rewrite lev_nil_l, lev_nil_r. split; reflexivity.
Qed.

Lemma editDistance_empty_witness :
  editDistance (txt "kitten") [] = Z.of_nat (length (txt "kitten")) /\
  editDistance [] (txt "kitten") = Z.of_nat (length (txt "kitten")).
Proof. apply editDistance_empty; vm_compute; reflexivity. Defined.

(** X15: when the loops end, every cell [(i, j)] of the table holds the
    minimum number of edits that turn the first [i] characters of [A] into
    the first [j] characters of [B]. *)
Theorem editDistance_table (A B : text) (i j : nat)
    (HA : fits (length A)) (HB : fits (length B))
    (Hi : i <= length A) (Hj : j <= length B) :
  exists d, tget (ed_loops A B) i j = Z.of_nat d /\
            min_edits (take i A) (take j B) d.
Proof.
  exists (lev (take i A) (take j B)). split; [|apply lev_min_edits].
  rewrite (filled_get _ _ _ _ _ _ _ _ _ (ed_loops_filled A B HA HB))
    by (unfold before; lia).
  unfold prefix_distance. rewrite lev_reverse. reflexivity.
Qed.

Lemma editDistance_table_witness :
  exists d, tget (ed_loops (txt "kitten") (txt "sitting")) 3 2 = Z.of_nat d /\
            min_edits (take 3 (txt "kitten")) (take 2 (txt "sitting")) d.
Proof.
  apply editDistance_table;
    [vm_compute; reflexivity|vm_compute; reflexivity|simpl; lia|simpl; lia].
Defined.

(** X16: a common beginning and a common end of the two texts do not
    count: they can be removed without changing the distance. *)
Theorem editDistance_common_affixes (P S A B : text)
    (HA : fits (length (P ++ A ++ S))) (HB : fits (length (P ++ B ++ S))) :
  editDistance (P ++ A ++ S) (P ++ B ++ S) = editDistance A B.
Proof.
  assert (HA' : fits (length A))
    by (eapply fits_le; [|exact HA]; rewrite !length_app; lia).
  assert (HB' : fits (length B))
    by (eapply fits_le; [|exact HB]; rewrite !length_app; lia).
  rewrite !editDistance_lev by assumption.
  rewrite lev_app_prefix, lev_app_suffix. reflexivity.
Qed.

Lemma editDistance_common_affixes_witness :
  editDistance (txt "un" ++ txt "kitten" ++ txt "ish")
               (txt "un" ++ txt "sitting" ++ txt "ish")
  = editDistance (txt "kitten") (txt "sitting").
Proof. apply editDistance_common_affixes; vm_compute; reflexivity. Defined.

(** ** broderContainment: further properties *)

Lemma double_div_inj a a' b :
  (0 < b)%Z -> double_div a b = double_div a' b -> a = a'.
Proof.
  intros Hb H. rewrite !double_div_num in H by lia.
  assert (Hq : (inject_Z a / inject_Z b == inject_Z a' / inject_Z b)%Q).
  { rewrite <- (Qred_correct (inject_Z a / inject_Z b)).
    rewrite <- (Qred_correct (inject_Z a' / inject_Z b)).
    injection H as H. rewrite H. reflexivity. }
  destruct b as [|p|p]; try lia.
  unfold Qeq, Qdiv, Qmult, Qinv, inject_Z in Hq. simpl in Hq. nia.
Qed.

Lemma double_div_zero b : (0 < b)%Z -> double_div 0 b = Num 0.
Proof.
  intros Hb. rewrite double_div_num, Qred_zero_div by lia. reflexivity.
Qed.

Lemma double_div_unit a b :
  (0 <= a <= b)%Z -> (0 < b)%Z ->
  exists q, double_div a b = Num q /\ (0 <= q)%Q /\ (q <= 1)%Q /\
            (q == inject_Z a / inject_Z b)%Q.
Proof.
  intros Ha Hb. eexists. split; [apply double_div_num; lia|].
  rewrite Qred_correct. split; [apply Qdiv_inject_nonneg; lia|].
  split; [|reflexivity].
  apply Qle_shift_div_r.
  - change 0%Q with (inject_Z 0). rewrite <- Zlt_Qlt. exact Hb.
  - rewrite Qmult_1_l, <- Zle_Qle. lia.
Qed.

(** The set built for a text: its non-empty substrings. *)
Lemma substrings_of_elem (s x : text) :
  x ∈ substrings_of s <-> x <> [] /\ occurs_in x s.
Proof.
  rewrite substrings_of_spec. split.
  - intros (i & j & Hij & ->). split; [|apply substr_occurs].
    intros Hnil. apply (f_equal length) in Hnil.
    rewrite substr_length in Hnil by lia. simpl in Hnil. lia.
  - intros [Hne Hocc]. apply occurs_in_substr in Hocc.
    destruct Hocc as (pos & Hpos & Hx).
    exists pos, (pos + length x). split.
    + destruct x; [contradiction|]. simpl in *. lia.
    + replace (pos + length x - pos) with (length x) by lia. exact Hx.
Qed.

Lemma occurs_in_trans (x y z : text) : occurs_in x y -> occurs_in y z -> occurs_in x z.
Proof.
  intros (p1 & q1 & ->) (p2 & q2 & ->).
  exists (p2 ++ p1), (q1 ++ q2). rewrite <- !(assoc_L (++)). reflexivity.
Qed.

Lemma occurs_in_refl (x : text) : occurs_in x x.
Proof. exists [], []. rewrite app_nil_r. reflexivity. Qed.

Lemma substrings_of_size (s : text) :
  2 * size (substrings_of s) <= length s * (length s + 1).
Proof.
  set (g := fun p : nat * nat => substr s p.1 (p.2 - p.1)).
  assert (Hsub : substrings_of s ⊆ list_to_set (map g (all_pairs (length s + 1)))).
  { intros x Hx. apply substrings_of_spec in Hx.
    destruct Hx as (i & j & Hij & ->).
    apply elem_of_list_to_set, list_elem_of_In, in_map_iff.
    exists (i, j). split; [reflexivity|].
    apply list_elem_of_In, all_pairs_spec. lia. }
  apply subseteq_size in Hsub.
  pose proof (size_list_to_set_le (map g (all_pairs (length s + 1)))) as Hle.
  rewrite length_map in Hle.
  pose proof (all_pairs_length (length s + 1)) as Hlen.
  replace (length s + 1 - 1) with (length s) in Hlen by lia. nia.
Qed.

Lemma count_contained_from_filter (subs2 : gset text) (acc : nat) (v : list text) :
  (Z.of_nat (acc + length v) < 2 ^ 31)%Z ->
  foldl (fun countContained s =>
           if decide (s ∈ subs2) then int_of (countContained + 1)
           else countContained) (Z.of_nat acc) v
  = Z.of_nat (acc + length (filter (fun s => s ∈ subs2) v)).
Proof.
  revert acc. induction v as [|s v IH]; intros acc Hfit; simpl.
  - f_equal. lia.
  - simpl in Hfit. rewrite filter_cons.
    destruct (decide (s ∈ subs2)) as [Hin|Hout].
    + replace (int_of (Z.of_nat acc + 1)) with (Z.of_nat (S acc)).
      * rewrite IH by lia. f_equal. simpl. lia.
      * symmetry. replace (Z.of_nat acc + 1)%Z with (Z.of_nat (S acc)) by lia.
        apply int_of_small. unfold half_modulus. lia.
    + apply IH. lia.
Qed.

(** The count is the number of strings that are in both sets. *)
Lemma count_contained_inter (subs1 subs2 : gset text) :
  (Z.of_nat (size subs1) < 2 ^ 31)%Z ->
  count_contained subs1 subs2 = Z.of_nat (size (subs1 ∩ subs2)).
Proof.
  intros Hfit. unfold count_contained.
  change 0%Z with (Z.of_nat 0). rewrite count_contained_from_filter by exact Hfit.
  f_equal. simpl. unfold size at 1, set_size. simpl.
  apply Permutation_length. apply NoDup_Permutation.
  - apply NoDup_filter, NoDup_elements.
  - apply NoDup_elements.
  - intros x. rewrite list_elem_of_filter, !elem_of_elements, elem_of_intersection.
    tauto.
Qed.

(** X17: the set built by the two loops of [broderContainment] holds
    exactly the non-empty substrings of the text, at most [n (n + 1) / 2]
    of them for a text of [n] characters. *)
Theorem substrings_of_all_substrings (s x : text) :
  (x ∈ substrings_of s <-> x <> [] /\ occurs_in x s) /\
  2 * size (substrings_of s) <= length s * (length s + 1).
Proof. split; [apply substrings_of_elem|apply substrings_of_size]. Qed.

(** X18: for a non-empty first text (whose substrings are counted without
    overflow) [broderContainment A B] is the number of distinct substrings
    of [A] that occur in [B] over the number of distinct substrings of [A],
    a number between 0 and 1. *)
Theorem broderContainment_ratio (A B : text)
    (Hne : A <> [])
    (Hsize : (Z.of_nat (size (substrings_of A)) < 2 ^ 31)%Z) :
  exists q, broderContainment A B = Num q /\ (0 <= q)%Q /\ (q <= 1)%Q /\
    (q == inject_Z (Z.of_nat (size (substrings_of A ∩ substrings_of B)))
          / inject_Z (Z.of_nat (size (substrings_of A))))%Q.
Proof.
  unfold broderContainment. rewrite count_contained_inter by exact Hsize.
  pose proof (substrings_of_nonempty A Hne).
  apply double_div_unit; [|lia].
  split; [lia|]. apply inj_le, subseteq_size, intersection_subseteq_l.
Qed.

Lemma broderContainment_ratio_witness :
  exists q, broderContainment (txt "abc") (txt "abd") = Num q /\ (0 <= q)%Q /\ (q <= 1)%Q /\
    (q == inject_Z (Z.of_nat (size (substrings_of (txt "abc") ∩ substrings_of (txt "abd"))))
          / inject_Z (Z.of_nat (size (substrings_of (txt "abc")))))%Q.
Proof.
  apply broderContainment_ratio; [discriminate|vm_compute; reflexivity].
Defined.

(** X19: for a non-empty first text, [broderContainment A B] is 1 exactly
    when [A] occurs in [B]. *)
Theorem broderContainment_one_iff (A B : text)
    (Hne : A <> [])
    (Hsize : (Z.of_nat (size (substrings_of A)) < 2 ^ 31)%Z) :
  broderContainment A B = Num 1 <-> occurs_in A B.
Proof.
  pose proof (substrings_of_nonempty A Hne) as Hpos.
  unfold broderContainment. rewrite count_contained_inter by exact Hsize.
  rewrite <- (double_div_self (Z.of_nat (size (substrings_of A)))) by lia.
  split.
  - intros H. apply double_div_inj in H; [|lia]. apply Nat2Z.inj in H.
    assert (Hsub : substrings_of A ∩ substrings_of B ≡ substrings_of A).
    { apply set_subseteq_size_equiv; [apply intersection_subseteq_l|lia]. }
    assert (HA : A ∈ substrings_of A)
      by (apply substrings_of_elem; split; [exact Hne|apply occurs_in_refl]).
    rewrite <- Hsub in HA. apply elem_of_intersection in HA as [_ HA].
    apply substrings_of_elem in HA. apply HA.
  - intros Hocc. f_equal. f_equal. f_equal. apply leibniz_equiv.
    apply set_equiv. intros x. rewrite elem_of_intersection, !substrings_of_elem.
    split; [tauto|]. intros [Hx HxA]. repeat split; try assumption.
    eapply occurs_in_trans; eassumption.
Qed.

Lemma broderContainment_one_iff_witness :
  broderContainment (txt "hello") (txt "say hello") = Num 1
  <-> occurs_in (txt "hello") (txt "say hello").
Proof.
  apply broderContainment_one_iff; [discriminate|vm_compute; reflexivity].
Defined.

(** X20: for a non-empty first text, [broderContainment A B] is 0 exactly
    when the two texts share no character. *)
Theorem broderContainment_zero_iff (A B : text)
    (Hne : A <> [])
    (Hsize : (Z.of_nat (size (substrings_of A)) < 2 ^ 31)%Z) :
  broderContainment A B = Num 0 <-> forall c, c ∈ A -> c ∉ B.
Proof.
  pose proof (substrings_of_nonempty A Hne) as Hpos.
  unfold broderContainment. rewrite count_contained_inter by exact Hsize.
  rewrite <- (double_div_zero (Z.of_nat (size (substrings_of A)))) by lia.
  assert (Hchar : forall (c : ascii) (s : text), [c] ∈ substrings_of s <-> c ∈ s).
  { intros c s. rewrite substrings_of_elem. split.
    - intros [_ (pre & post & ->)]. rewrite elem_of_app. right. left.
    - intros Hin. split; [discriminate|].
      apply list_elem_of_split in Hin as (pre & post & ->).
      exists pre, post. reflexivity. }
  split.
  - intros H c HcA HcB. apply double_div_inj in H; [|lia].
    change 0%Z with (Z.of_nat 0) in H. apply Nat2Z.inj in H.
    apply size_empty_iff in H.
    assert (Hin : [c] ∈ substrings_of A ∩ substrings_of B)
      by (apply elem_of_intersection; split; apply Hchar; assumption).
    rewrite H in Hin. exact (not_elem_of_empty _ Hin).
  - intros Hnone. f_equal. change 0%Z with (Z.of_nat 0). f_equal.
    apply size_empty_iff, elem_of_equiv_empty. intros x Hx.
    apply elem_of_intersection in Hx as [HxA HxB].
    apply substrings_of_elem in HxA as [Hx HoA], HxB as [_ HoB].
    destruct x as [|c x]; [contradiction|].
    apply (Hnone c).
    + destruct HoA as (pre & post & ->). rewrite elem_of_app. right. left.
    + destruct HoB as (pre & post & ->). rewrite elem_of_app. right. left.
Qed.

Lemma broderContainment_zero_iff_witness :
  broderContainment (txt "abc") (txt "xyz") = Num 0
  <-> forall c, c ∈ txt "abc" -> c ∉ txt "xyz".
Proof.
  apply broderContainment_zero_iff; [discriminate|vm_compute; reflexivity].
Defined.

(** X21: [broderContainment] divides by zero exactly when the first text is
    empty, whatever the second text is. *)
Theorem broderContainment_NaN_iff (A B : text) :
  broderContainment A B = NaN <-> A = [].
Proof.
  split.
  - intros H. destruct A as [|a A]; [reflexivity|].
    unfold broderContainment in H.
    pose proof (substrings_of_nonempty (a :: A) ltac:(discriminate)).
    rewrite double_div_num in H by lia. discriminate.
  - intros ->. reflexivity.
Qed.

(** ** generateSimilarityMatrix, comparePairs and the ranking *)



Lemma double_gt_irrefl x : double_gt x x = false.
Proof.
  destruct x as [p|[]|]; try reflexivity.
  unfold double_gt. rewrite (proj1 (Qeq_alt p p)) by reflexivity. reflexivity.
Qed.

Lemma double_gt_trans x y z :
  double_gt x y = true -> double_gt y z = true -> double_gt x z = true.
Proof.
  destruct x as [p|nx|], y as [q|ny|], z as [r|nz|];
    try (rewrite !double_gt_num; intros H1 H2; eapply Qlt_trans; eassumption);
    unfold double_gt; intros H1 H2;
    repeat match goal with b : bool |- _ => destruct b end;
    simpl in *; congruence.
Qed.

Lemma double_gt_asym x y : double_gt x y = true -> double_gt y x = false.
Proof.
  intros H. destruct (double_gt y x) eqn:E; [|reflexivity].
  pose proof (double_gt_trans x y x H E) as Hxx.
  rewrite double_gt_irrefl in Hxx. discriminate.
Qed.

(** X23: whatever the matrix holds, [comparePairs] is a strict order on the
    pairs: no pair is before itself, two pairs are never before each other,
    and the relation is transitive. In particular two pairs with the same
    matrix value compare false in both directions. *)
Theorem comparePairs_strict_order (M : list (list double)) (a b c : nat * nat) :
  comparePairs a a M = false /\
  (comparePairs a b M = true -> comparePairs b a M = false) /\
  (comparePairs a b M = true -> comparePairs b c M = true ->
   comparePairs a c M = true) /\
  (tget M a.1 a.2 = tget M b.1 b.2 ->
   comparePairs a b M = false /\ comparePairs b a M = false).
Proof.
  unfold comparePairs. split; [apply double_gt_irrefl|].
  split; [apply double_gt_asym|]. split; [apply double_gt_trans|].
  intros ->. split; apply double_gt_irrefl.
Qed.


(** X25: when the corpus does not hold two empty documents, the matrix
    values along the list ranked by [main] never increase. *)
Theorem main_ranking_sorted (documents : list text)
    (Hn : fits (length documents))
    (Hdocs : forall d, d ∈ documents -> fits (length d))
    (Hnonempty : forall i j, i < j < length documents ->
       documents !!! i <> [] \/ documents !!! j <> []) :
  non_increasing
    (values_along (generateSimilarityMatrix documents 5) (main_ranking documents)).
Proof.
  unfold main_ranking. exact (ranked_pairs_sorted documents 5 Hn Hdocs Hnonempty).
Qed.

Lemma main_ranking_sorted_witness :
  non_increasing
    (values_along
       (generateSimilarityMatrix [txt "hello world"; txt "say hello"; txt "hello"] 5)
       (main_ranking [txt "hello world"; txt "say hello"; txt "hello"])).
Proof.
  apply main_ranking_sorted.
  - vm_compute; reflexivity.
  - intros d Hd. apply list_elem_of_In in Hd. simpl in Hd.
    destruct Hd as [<-|[<-|[<-|[]]]]; vm_compute; reflexivity.
  - intros i j Hij. simpl in Hij.
    destruct i as [|[|[|i]]]; left; simpl; try discriminate; lia.
Defined.

(** ** The report loop of [main] *)

Lemma for_loop_collect {X : Type} (f : nat -> X) lo n :
  for_loop lo n (fun k out => out ++ [f k]) [] = map f (seq lo n).
Proof.
  induction n as [|n IH]; [reflexivity|].
  rewrite for_loop_succ, IH, seq_S, map_app. reflexivity.
Qed.

Lemma map_lookup_total_seq {X : Type} `{Inhabited X} (l : list X) n :
  map (fun k => l !!! k) (seq 0 (Nat.min n (length l))) = take n l.
Proof.
  revert n. induction l as [|x l IH]; intros n.
  - rewrite Nat.min_0_r, take_nil. reflexivity.
  - destruct n as [|n]; [reflexivity|].
    simpl. f_equal. rewrite <- seq_shift. rewrite List.map_map. apply IH.
Qed.

Lemma main_report_map (documents : list text) :
  main_report documents
  = map (report_entry_at documents 5 (generateSimilarityMatrix documents 5)
           (main_ranking documents))
        (seq 0 (Nat.min 10 (length (main_ranking documents)))).
Proof. unfold main_report. apply for_loop_collect. Qed.


Lemma StronglySorted_take_drop {X : Type} (R : X -> X -> Prop) (l : list X) n x y :
  StronglySorted R l -> x ∈ take n l -> y ∈ drop n l -> R x y.
Proof.
  intros Hsorted. revert n. induction Hsorted as [|z l Hs IH Hz]; intros n Hx Hy.
  - rewrite take_nil in Hx. inversion Hx.
  - destruct n as [|n]; [inversion Hx|]. simpl in Hx, Hy.
    apply elem_of_cons in Hx as [->|Hx].
    + rewrite Forall_forall in Hz. apply Hz.
      exact (sublist_subseteq _ _ (sublist_drop l n) y Hy).
    + eapply IH; eassumption.
Qed.

(** X27: when the corpus does not hold two empty documents, every pair
    shown in the report is at least as similar as every pair left out. *)
Theorem main_report_most_similar (documents : list text) (e : report_entry)
    (p : nat * nat)
    (Hn : fits (length documents))
    (Hdocs : forall d, d ∈ documents -> fits (length d))
    (Hnonempty : forall i j, i < j < length documents ->
       documents !!! i <> [] \/ documents !!! j <> [])
    (He : e ∈ main_report documents)
    (Hp : p ∈ drop 10 (main_ranking documents)) :
  double_ge (entry_similarity e)
            (tget (generateSimilarityMatrix documents 5) p.1 p.2) = true.
Proof.
  pose proof (ranked_pairs_sorted documents 5 Hn Hdocs Hnonempty) as Hsorted.
  fold (main_ranking documents) in Hsorted.
  unfold non_increasing, values_along in Hsorted.
  apply (StronglySorted_take_drop _ _ 10 _ _ Hsorted).
  - rewrite firstn_map.
    rewrite main_report_map in He.
    apply list_elem_of_In, in_map_iff in He. destruct He as (k & <- & Hk).
    apply in_seq in Hk. simpl.
    apply list_elem_of_In, in_map_iff.
    exists (main_ranking documents !!! k). split; [reflexivity|].
    apply list_elem_of_In. rewrite <- (map_lookup_total_seq _ 10).
    apply list_elem_of_In, in_map_iff. exists k. split; [reflexivity|].
    apply in_seq. lia.
  - rewrite skipn_map. apply list_elem_of_In, in_map_iff.
    exists p. split; [reflexivity|]. apply list_elem_of_In, Hp.
Qed.

Lemma main_report_most_similar_witness :
  double_ge
    (entry_similarity
       (report_entry_at sample_corpus 5 (generateSimilarityMatrix sample_corpus 5)
          (main_ranking sample_corpus) 0))
    (tget (generateSimilarityMatrix sample_corpus 5) (4, 5).1 (4, 5).2) = true.
Proof.
  assert (E : main_ranking sample_corpus
              = [(0, 1); (2, 4); (0, 2); (0, 3); (0, 4); (0, 5); (1, 2); (1, 3);
                 (1, 4); (1, 5); (2, 3); (2, 5); (3, 4); (3, 5); (4, 5)])
    by (vm_compute; reflexivity).
  apply (main_report_most_similar sample_corpus).
  - vm_compute; reflexivity.
  - intros d Hd. apply list_elem_of_In in Hd. simpl in Hd.
    repeat (destruct Hd as [<-|Hd]; [vm_compute; reflexivity|]). destruct Hd.
  - intros i j Hij. left. simpl in Hij.
    do 6 (destruct i as [|i]; [simpl; discriminate|]). lia.
  - rewrite main_report_map, E. simpl. left.
  - rewrite E. simpl. repeat (try (left; reflexivity); right).
Defined.

(** ** highlightSimilarities *)

Lemma str_find_occurs s sub p :
  str_find s sub = Some p -> take (length sub) (drop p s) = sub.
Proof.
  revert p. induction s as [|a s IH]; intros p; simpl.
  - destruct (decide (take (length sub) [] = sub)); [|discriminate].
    intros [= <-]. assumption.
  - destruct (decide (take (length sub) (a :: s) = sub)) as [Heq|Hne].
    + intros [= <-]. exact Heq.
    + destruct (str_find s sub) as [p'|] eqn:E; [|discriminate].
      intros [= <-]. simpl. apply IH. reflexivity.
Qed.

Lemma str_find_first s sub p p' :
  str_find s sub = Some p -> p' < p -> take (length sub) (drop p' s) <> sub.
Proof.
  revert p p'. induction s as [|a s IH]; intros p p'; simpl.
  - destruct (decide (take (length sub) [] = sub)); [|discriminate].
    intros [= <-]. lia.
  - destruct (decide (take (length sub) (a :: s) = sub)) as [Heq|Hne].
    + intros [= <-]. lia.
    + destruct (str_find s sub) as [q|] eqn:E; [|discriminate].
      intros [= <-] Hlt. destruct p' as [|p']; [exact Hne|].
      simpl. apply (IH q); [reflexivity|lia].
Qed.

Lemma str_find_none s sub p :
  str_find s sub = None -> take (length sub) (drop p s) <> sub.
Proof.
  revert p. induction s as [|a s IH]; intros p; simpl.
  - destruct (decide (take (length sub) [] = sub)) as [|Hne]; [discriminate|].
    intros _. rewrite drop_nil. exact Hne.
  - destruct (decide (take (length sub) (a :: s) = sub)) as [|Hne]; [discriminate|].
    destruct (str_find s sub) as [q|] eqn:E; [discriminate|].
    intros _. destruct p as [|p]; [exact Hne|]. simpl. apply IH. reflexivity.
Qed.

Lemma occurs_at (s pre sub post : text) :
  s = pre ++ sub ++ post -> take (length sub) (drop (length pre) s) = sub.
Proof. intros ->. rewrite drop_app_length, take_app_length. reflexivity. Qed.

Lemma str_find_bound s sub p :
  str_find s sub = Some p -> p + length sub <= length s.
Proof.
  revert p. induction s as [|a s IH]; intros p; simpl.
  - destruct (decide (take (length sub) [] = sub)) as [Heq|]; [|discriminate].
    intros [= <-]. rewrite take_nil in Heq. subst sub. reflexivity.
  - destruct (decide (take (length sub) (a :: s) = sub)) as [Heq|Hne].
    + intros [= <-]. apply (f_equal length) in Heq.
      rewrite length_take in Heq. simpl in *. lia.
    + destruct (str_find s sub) as [q|] eqn:E; [|discriminate].
      intros [= <-]. specialize (IH q eq_refl). lia.
Qed.

Lemma str_find_some_iff s sub :
  occurs_in sub s <-> exists p, str_find s sub = Some p.
Proof.
  split.
  - intros (pre & post & Hs).
    destruct (str_find s sub) as [p|] eqn:E; [eauto|].
    exfalso. exact (str_find_none s sub (length pre) E (occurs_at _ _ _ _ Hs)).
  - intros [p Hp]. apply str_find_occurs in Hp. rewrite <- Hp.
    apply (substr_occurs s p (length sub)).
Qed.

(** The two insertions put the marks right around the occurrence found. *)
Lemma mark_first_found s sub p :
  str_find s sub = Some p ->
  mark_first sub s
  = take p s ++ mark_open ++ sub ++ mark_close ++ drop (p + length sub) s.
Proof.
  intros Hp. unfold mark_first. rewrite Hp.
  pose proof (str_find_bound _ _ _ Hp) as Hb.
  apply str_find_occurs in Hp.
  assert (Hdrop : drop p s = sub ++ drop (p + length sub) s).
  { rewrite <- (take_drop (length sub) (drop p s)), Hp, drop_drop. reflexivity. }
  unfold str_insert. rewrite Hdrop.
  set (rest := drop (p + length sub) s).
  assert (Hlen : length (take p s ++ mark_open ++ sub) = p + length sub + 6).
  { rewrite !length_app, length_take. change (length mark_open) with 6. lia. }
  replace (take p s ++ mark_open ++ sub ++ rest)
    with ((take p s ++ mark_open ++ sub) ++ rest)
    by (rewrite <- !(assoc_L (++)); reflexivity).
  rewrite <- Hlen, take_app_length, drop_app_length.
  rewrite <- !(assoc_L (++)). reflexivity.
Qed.

Lemma mark_first_absent s sub : str_find s sub = None -> mark_first sub s = s.
Proof. intros H. unfold mark_first. rewrite H. reflexivity. Qed.

(** X28: when the substring occurs in the text, the loop body wraps its
    first occurrence, and only it, between ["<mark>"] and ["</mark>"]. *)
Theorem mark_first_wraps (sub s : text) (Hocc : occurs_in sub s) :
  exists pre post,
    s = pre ++ sub ++ post /\
    (forall pre' post', s = pre' ++ sub ++ post' -> length pre <= length pre') /\
    mark_first sub s = pre ++ txt "<mark>" ++ sub ++ txt "</mark>" ++ post.
Proof.
  apply str_find_some_iff in Hocc as [p Hp].
  pose proof (str_find_bound _ _ _ Hp) as Hb.
  exists (take p s), (drop (p + length sub) s). split; [|split].
  - rewrite <- (take_drop p s) at 1. f_equal.
    rewrite <- (take_drop (length sub) (drop p s)), drop_drop.
    f_equal. apply str_find_occurs, Hp.
  - intros pre' post' Hs. rewrite length_take.
    destruct (decide (length pre' < p)) as [Hlt|]; [|lia].
    exfalso. exact (str_find_first _ _ _ _ Hp Hlt (occurs_at _ _ _ _ Hs)).
  - apply mark_first_found, Hp.
Qed.

Lemma mark_first_wraps_witness :
  exists pre post,
    txt "say hello, hello" = pre ++ txt "hello" ++ post /\
    (forall pre' post', txt "say hello, hello" = pre' ++ txt "hello" ++ post' ->
       length pre <= length pre') /\
    mark_first (txt "hello") (txt "say hello, hello")
    = pre ++ txt "<mark>" ++ txt "hello" ++ txt "</mark>" ++ post.
Proof.
  apply mark_first_wraps. exists (txt "say "), (txt ", hello"). reflexivity.
Defined.

Lemma mark_first_sublist sub s : s `sublist_of` mark_first sub s.
Proof.
  destruct (str_find s sub) as [p|] eqn:Hp.
  - rewrite (mark_first_found _ _ _ Hp).
    pose proof (str_find_occurs _ _ _ Hp) as Hocc.
    rewrite <- (take_drop p s) at 1.
    apply sublist_app; [reflexivity|]. apply sublist_inserts_l.
    rewrite <- (take_drop (length sub) (drop p s)), drop_drop, Hocc.
    apply sublist_app; [reflexivity|]. apply sublist_inserts_l. reflexivity.
  - rewrite (mark_first_absent _ _ Hp). reflexivity.
Qed.

Lemma mark_first_length sub s :
  length (mark_first sub s)
  = length s + 13 * (match str_find s sub with Some _ => 1 | None => 0 end).
Proof.
  destruct (str_find s sub) as [p|] eqn:Hp.
  - rewrite (mark_first_found _ _ _ Hp).
    pose proof (str_find_bound _ _ _ Hp).
    rewrite !length_app, length_take, length_drop.
    change (length mark_open) with 6. change (length mark_close) with 7. lia.
  - rewrite (mark_first_absent _ _ Hp). lia.
Qed.

(** The loop only inserts marks: each copy still holds its text, and grows
    by 13 characters for each substring that was found. *)
Lemma highlight_loop_keeps (cs : list text) (s1 s2 : text) :
  s1 `sublist_of` (highlight_loop cs s1 s2).1 /\
  s2 `sublist_of` (highlight_loop cs s1 s2).2 /\
  exists c1 c2, c1 <= length cs /\ c2 <= length cs /\
    length (highlight_loop cs s1 s2).1 = length s1 + 13 * c1 /\
    length (highlight_loop cs s1 s2).2 = length s2 + 13 * c2 /\
    (forall x cs', cs = x :: cs' -> occurs_in x s1 -> 1 <= c1) /\
    (forall x cs', cs = x :: cs' -> occurs_in x s2 -> 1 <= c2).
Proof.
  unfold highlight_loop. revert s1 s2. induction cs as [|x cs IH]; intros s1 s2.
  - simpl. split; [reflexivity|]. split; [reflexivity|].
    exists 0, 0. repeat split; try lia; intros; discriminate.
  - simpl.
    destruct (IH (mark_first x s1) (mark_first x s2))
      as (Hs1 & Hs2 & c1 & c2 & Hc1 & Hc2 & Hl1 & Hl2 & _ & _).
    split; [etransitivity; [apply mark_first_sublist|exact Hs1]|].
    split; [etransitivity; [apply mark_first_sublist|exact Hs2]|].
    exists (match str_find s1 x with Some _ => 1 | None => 0 end + c1),
           (match str_find s2 x with Some _ => 1 | None => 0 end + c2).
    rewrite Hl1, Hl2, !mark_first_length.
    split; [destruct (str_find s1 x); lia|].
    split; [destruct (str_find s2 x); lia|].
    split; [lia|]. split; [lia|]. split.
    + intros y cs' [= <- <-] Hocc. apply str_find_some_iff in Hocc as [p ->]. lia.
    + intros y cs' [= <- <-] Hocc. apply str_find_some_iff in Hocc as [p ->]. lia.
Qed.

(** X29: the page fragment returned by [highlightSimilarities] is the fixed
    frame around two copies of the texts into which only marks were
    inserted: each copy still holds its text in order, is longer by 13
    characters for every substring marked, and at least one substring is
    marked in each copy as soon as one is found. *)
Theorem highlightSimilarities_keeps_texts (A B : text) (k : Z)
    (HA : fits (length A)) (HB : fits (length B)) :
  exists h1 h2 c1 c2,
    highlightSimilarities A B k
    = txt "<h3>Texto 1:</h3><p>" ++ h1
      ++ txt "</p><h3>Texto 2:</h3><p>" ++ h2 ++ txt "</p>" /\
    A `sublist_of` h1 /\ B `sublist_of` h2 /\
    length h1 = length A + 13 * c1 /\ length h2 = length B + 13 * c2 /\
    c1 <= length (findCommonSubstrings A B k) /\
    c2 <= length (findCommonSubstrings A B k) /\
    (findCommonSubstrings A B k <> [] -> 1 <= c1 /\ 1 <= c2).
Proof.
  destruct (highlight_loop_keeps (findCommonSubstrings A B k) A B)
    as (Hs1 & Hs2 & c1 & c2 & Hc1 & Hc2 & Hl1 & Hl2 & Hf1 & Hf2).
  exists (highlight_loop (findCommonSubstrings A B k) A B).1,
         (highlight_loop (findCommonSubstrings A B k) A B).2, c1, c2.
  split; [reflexivity|]. repeat (split; [assumption|]).
  intros Hne.
  destruct (findCommonSubstrings A B k) as [|x cs] eqn:E; [contradiction|].
  destruct (findCommonSubstrings_elem A B k x HA HB ltac:(rewrite E; left))
    as ([HoA HoB] & _).
  split; [eapply Hf1|eapply Hf2]; eauto.
Qed.

Lemma highlightSimilarities_keeps_texts_witness :
  exists h1 h2 c1 c2,
    highlightSimilarities (txt "hello world") (txt "say hello") 5
    = txt "<h3>Texto 1:</h3><p>" ++ h1
      ++ txt "</p><h3>Texto 2:</h3><p>" ++ h2 ++ txt "</p>" /\
    txt "hello world" `sublist_of` h1 /\ txt "say hello" `sublist_of` h2 /\
    length h1 = length (txt "hello world") + 13 * c1 /\
    length h2 = length (txt "say hello") + 13 * c2 /\
    c1 <= length (findCommonSubstrings (txt "hello world") (txt "say hello") 5) /\
    c2 <= length (findCommonSubstrings (txt "hello world") (txt "say hello") 5) /\
    (findCommonSubstrings (txt "hello world") (txt "say hello") 5 <> [] ->
     1 <= c1 /\ 1 <= c2).
Proof.
  apply highlightSimilarities_keeps_texts; vm_compute; reflexivity.
Defined.

(** The vector is empty exactly when the texts share no substring of the
    asked length. *)
Lemma findCommonSubstrings_nil_iff (A B : text) (k : Z) :
  fits (length A) -> fits (length B) ->
  findCommonSubstrings A B k = [] <->
  ~ exists y, common_substring y A B /\ 1 <= length y
              /\ (k <= Z.of_nat (length y))%Z.
Proof.
  intros HA HB. split.
  - intros Hnil (y & Hy & Hy1 & Hyk).
    destruct (common_substring_covered A B k y HA HB Hy Hy1 Hyk) as (x & Hx & _).
    rewrite Hnil in Hx. inversion Hx.
  - intros Hnone.
    destruct (findCommonSubstrings A B k) as [|x v] eqn:E; [reflexivity|].
    exfalso. apply Hnone. exists x.
    apply (findCommonSubstrings_elem A B k x HA HB). rewrite E. left.
Qed.

(** X30: when the texts share no substring of at least [k] characters (and
    at least one), [highlightSimilarities] returns the two texts unchanged
    inside the fixed frame. *)
Theorem highlightSimilarities_plain (A B : text) (k : Z)
    (HA : fits (length A)) (HB : fits (length B))
    (Hnone : ~ exists y, common_substring y A B /\ 1 <= length y
                         /\ (k <= Z.of_nat (length y))%Z) :
  highlightSimilarities A B k
  = txt "<h3>Texto 1:</h3><p>" ++ A
    ++ txt "</p><h3>Texto 2:</h3><p>" ++ B ++ txt "</p>".
Proof.
  apply findCommonSubstrings_nil_iff in Hnone; try assumption.
  unfold highlightSimilarities. rewrite Hnone. reflexivity.
Qed.

Lemma highlightSimilarities_plain_witness :
  highlightSimilarities (txt "abc") (txt "xyz") 1
  = txt "<h3>Texto 1:</h3><p>" ++ txt "abc"
    ++ txt "</p><h3>Texto 2:</h3><p>" ++ txt "xyz" ++ txt "</p>".
Proof.
  apply highlightSimilarities_plain;
    [vm_compute; reflexivity|vm_compute; reflexivity|].
  apply findCommonSubstrings_nil_iff;
    [vm_compute; reflexivity|vm_compute; reflexivity|vm_compute; reflexivity].
Defined.
